(** * Minimal Discord RPC: the IPC transport and the rich-presence client

    A shallow embedding of [src/structures/ipcTransport.ts],
    [src/structures/eventEmitter.ts] and [src/structures/client.ts], and the
    properties of the frame codec, the read loop, the socket locator and the
    activity requests.

    Layout: the host platform (bytes, [Buffer], [JSON], paths) first, then the
    event emitter, the transport, the client, and last the theorems. *)

From Stdlib Require Import ZArith List String Ascii Lia Bool.
From Stdlib Require Import DecimalString DecimalZ DecimalPos DecimalFacts.
From Stdlib.Strings Require Import Byte.
From stdpp Require Import gmap strings.
Import ListNotations.

Local Open Scope Z_scope.
Set Warnings "-register-all".

(* ===================================================================== *)
(** ** Host platform: errors *)
(* ===================================================================== *)

(** What a JavaScript [throw] carries, as far as this program can tell the
    cases apart. *)
Inductive JsError :=
| RangeError                 (* Buffer access or value out of range *)
| TypeError                  (* property read on null *)
| ENOENT (path : string)     (* fs.realpathSync on a path that does not exist *)
| Error (message : string).  (* new Error(message) *)

Inductive Outcome (A : Type) :=
| Return (a : A)
| Throw (e : JsError).
Arguments Return {A} a.
Arguments Throw {A} e.

(* ===================================================================== *)
(** ** Host platform: bytes and [Buffer] *)
(* ===================================================================== *)

Definition Buffer := list byte.

Definition Z_of_byte (b : byte) : Z := Z.of_N (Byte.to_N b).

Definition byte_of_Z (z : Z) : byte :=
  match Byte.of_N (Z.to_N (z mod 256)) with
  | Some b => b
  | None => x00
  end.

Definition u32_max : Z := 4294967295.

Module Buf.

(** [Buffer.alloc(n)]: [n] zero bytes. *)
Definition alloc (n : nat) : Buffer := repeat x00 n.

(** [Buffer.concat(list)]. *)
Definition concat (l : list Buffer) : Buffer := List.concat l.

(** [Buffer.from(string)]: the UTF-8 bytes of the string.  A JavaScript string
    is modelled by its UTF-8 encoding (see [JSON] below), so this is the
    identity on the underlying bytes. *)
Definition from (s : string) : Buffer := list_byte_of_string s.

(** [buf.toString()]. *)
Definition toString (b : Buffer) : string := string_of_list_byte b.

(** [buf.subarray(start, end)], both indices clamped to the buffer. *)
Definition subarray (b : Buffer) (start stop : nat) : Buffer :=
  firstn (stop - start) (skipn start b).

(** [buf.readUInt32LE(offset)]; out of range offsets raise. *)
Definition readUInt32LE (b : Buffer) (offset : nat) : Outcome Z :=
  match skipn offset b with
  | b0 :: b1 :: b2 :: b3 :: _ =>
      Return (Z_of_byte b0 + Z_of_byte b1 * 2 ^ 8
              + Z_of_byte b2 * 2 ^ 16 + Z_of_byte b3 * 2 ^ 24)
  | _ => Throw RangeError
  end.

(** [buf.writeUInt32LE(value, offset)]: the value must be an unsigned 32-bit
    integer and the four bytes must lie inside the buffer, else it raises. *)
Definition writeUInt32LE (b : Buffer) (value : Z) (offset : nat) : Outcome Buffer :=
  if negb ((0 <=? value) && (value <=? u32_max)) then Throw RangeError
  else if negb (offset + 4 <=? List.length b)%nat then Throw RangeError
  else Return (firstn offset b
               ++ [byte_of_Z value; byte_of_Z (value / 2 ^ 8);
                   byte_of_Z (value / 2 ^ 16); byte_of_Z (value / 2 ^ 24)]
               ++ skipn (offset + 4) b).

Definition hex_digit_upper (n : N) : ascii :=
  ascii_of_N (if (n <? 10)%N then 48 + n else 55 + n)%N.

Definition hex_pair_upper (b : byte) : string :=
  let n := Byte.to_N b in
  String (hex_digit_upper (n / 16)) (String (hex_digit_upper (n mod 16)) EmptyString).

Fixpoint join (sep : string) (l : list string) : string :=
  match l with
  | [] => EmptyString
  | [s] => s
  | s :: rest => s +:+ sep +:+ join sep rest
  end.

(** [chunk.toString("hex").match(/.{1,2}/g)?.join(" ").toUpperCase()] inside a
    template literal: the bytes in upper-case hexadecimal separated by
    blanks; on an empty chunk [match] yields null and the template prints
    [undefined]. *)
Definition hexdump (chunk : Buffer) : string :=
  match chunk with
  | [] => "undefined"
  | _ => join " " (map hex_pair_upper chunk)
  end.

End Buf.

(* ===================================================================== *)
(** ** Host platform: JavaScript values and [JSON] *)
(* ===================================================================== *)

(** The values [JSON.parse] produces and [JSON.stringify] accepts.
    - A number is an integer (the payloads of this protocol carry process
      ids, codes and timestamps); [Z] stands for the safe-integer range.
    - A string is represented by its UTF-8 encoding, one [ascii] per byte,
      so that [Buffer.from] and [toString] are the identity on its bytes.
      [toString] replaces invalid UTF-8 by U+FFFD where this model keeps the
      bytes; that never swallows an ASCII byte, so which payloads parse is
      unaffected.
    - An object is its members in insertion order. *)
Inductive json :=
| JNull
| JBool (b : bool)
| JNumber (n : Z)
| JString (s : string)
| JArray (items : list json)
| JObject (members : list (string * json)).

(** A value as a variable or an argument holds it: [None] is [undefined]. *)
Definition any := option json.

(** ToBoolean, as the conditional [payload ? ... : ...] applies it. *)
Definition truthy (v : any) : bool :=
  match v with
  | None => false
  | Some JNull => false
  | Some (JBool b) => b
  | Some (JNumber n) => negb (n =? 0)
  | Some (JString s) => negb (String.eqb s EmptyString)
  | Some (JArray _) => true
  | Some (JObject _) => true
  end.

(** [o.key] on a parsed value: the last member of that name of an object,
    [undefined] on any other value but null, where the read raises. *)
Fixpoint lookup_member (key : string) (members : list (string * json)) : any :=
  match members with
  | [] => None
  | (k, v) :: rest =>
      match lookup_member key rest with
      | Some w => Some w
      | None => if String.eqb k key then Some v else None
      end
  end.

Definition get_prop (v : json) (key : string) : Outcome any :=
  match v with
  | JNull => Throw TypeError
  | JObject members => Return (lookup_member key members)
  | _ => Return None
  end.

Module JSON.

Definition dquote : ascii := "034".
Definition backslash : ascii := "092".

(** *** [JSON.stringify] *)

Definition hex_digit_lower (n : N) : ascii :=
  ascii_of_N (if (n <? 10)%N then 48 + n else 87 + n)%N.

Definition escape_char (c : ascii) : string :=
  let n := N_of_ascii c in
  if Ascii.eqb c dquote then String backslash (String dquote EmptyString)
  else if Ascii.eqb c backslash then String backslash (String backslash EmptyString)
  else if (n =? 8)%N then String backslash "b"
  else if (n =? 9)%N then String backslash "t"
  else if (n =? 10)%N then String backslash "n"
  else if (n =? 12)%N then String backslash "f"
  else if (n =? 13)%N then String backslash "r"
  else if (n <? 32)%N then
    String backslash
      (String "u" (String "0" (String "0"
         (String (hex_digit_lower (n / 16))
            (String (hex_digit_lower (n mod 16)) EmptyString)))))
  else String c EmptyString.

Fixpoint escape (s : string) : string :=
  match s with
  | EmptyString => EmptyString
  | String c r => escape_char c +:+ escape r
  end.

Definition quote (s : string) : string :=
  String dquote (escape s +:+ String dquote EmptyString).

Definition string_of_Z (z : Z) : string := NilZero.string_of_int (Z.to_int z).

Fixpoint stringify (v : json) : string :=
  match v with
  | JNull => "null"
  | JBool true => "true"
  | JBool false => "false"
  | JNumber n => string_of_Z n
  | JString s => quote s
  | JArray items => "[" +:+ Buf.join "," (map stringify items) +:+ "]"
  | JObject members =>
      "{" +:+ Buf.join "," (map (fun kv => quote (fst kv) +:+ ":" +:+ stringify (snd kv)) members)
          +:+ "}"
  end.

(** *** [JSON.parse] *)

Definition is_ws (c : ascii) : bool :=
  Ascii.eqb c " " || Ascii.eqb c "009" || Ascii.eqb c "010" || Ascii.eqb c "013".

Fixpoint skip_ws (s : string) : string :=
  match s with
  | String c r => if is_ws c then skip_ws r else s
  | EmptyString => s
  end.

Definition digit_cons (c : ascii) : option (Decimal.uint -> Decimal.uint) :=
  match N_of_ascii c with
  | 48%N => Some Decimal.D0 | 49%N => Some Decimal.D1 | 50%N => Some Decimal.D2
  | 51%N => Some Decimal.D3 | 52%N => Some Decimal.D4 | 53%N => Some Decimal.D5
  | 54%N => Some Decimal.D6 | 55%N => Some Decimal.D7 | 56%N => Some Decimal.D8
  | 57%N => Some Decimal.D9
  | _ => None
  end.

(** The longest run of decimal digits at the head of [s]. *)
Fixpoint parse_digits (s : string) : Decimal.uint * string :=
  match s with
  | String c r =>
      match digit_cons c with
      | Some d => let (ds, r') := parse_digits r in (d ds, r')
      | None => (Decimal.Nil, s)
      end
  | EmptyString => (Decimal.Nil, s)
  end.

Definition bad_int (d : Decimal.uint) : bool :=
  match d with
  | Decimal.Nil => true
  | Decimal.D0 Decimal.Nil => false
  | Decimal.D0 _ => true
  | _ => false
  end.

Definition number_continues (s : string) : bool :=
  match s with
  | String c _ => Ascii.eqb c "." || Ascii.eqb c "e" || Ascii.eqb c "E"
  | EmptyString => false
  end.

(** An integer part without a leading zero.  A fraction or an exponent lies
    outside the integers this model represents, and is refused. *)
Definition parse_int (s : string) : option (Z * string) :=
  let (d, r) := parse_digits s in
  if bad_int d then None
  else if number_continues r then None
  else Some (Z.of_uint d, r).

(** A number literal: an optional minus, then the integer part. *)
Definition parse_number (s : string) : option (Z * string) :=
  match s with
  | String c r =>
      if Ascii.eqb c "-" then
        match parse_int r with
        | Some (n, r') => Some (- n, r')
        | None => None
        end
      else parse_int s
  | EmptyString => None
  end.

Definition hex_val (c : ascii) : option N :=
  let n := N_of_ascii c in
  if ((48 <=? n) && (n <=? 57))%N then Some (n - 48)%N
  else if ((97 <=? n) && (n <=? 102))%N then Some (n - 87)%N
  else if ((65 <=? n) && (n <=? 70))%N then Some (n - 55)%N
  else None.

Definition hex4 (a b c d : ascii) : option N :=
  match hex_val a, hex_val b, hex_val c, hex_val d with
  | Some x, Some y, Some z, Some w => Some (((x * 16 + y) * 16 + z) * 16 + w)%N
  | _, _, _, _ => None
  end.

(** The UTF-8 bytes of a code point (of a lone surrogate too). *)
Definition utf8 (cp : N) : string :=
  let cont (n : N) : ascii := ascii_of_N (128 + n mod 64)%N in
  if (cp <? 128)%N then String (ascii_of_N cp) EmptyString
  else if (cp <? 2048)%N then
    String (ascii_of_N (192 + cp / 64)%N) (String (cont cp) EmptyString)
  else if (cp <? 65536)%N then
    String (ascii_of_N (224 + cp / 4096)%N)
      (String (cont (cp / 64)%N) (String (cont cp) EmptyString))
  else
    String (ascii_of_N (240 + cp / 262144)%N)
      (String (cont (cp / 4096)%N)
         (String (cont (cp / 64)%N) (String (cont cp) EmptyString))).

Definition is_high_surrogate (u : N) : bool := ((55296 <=? u) && (u <=? 56319))%N.
Definition is_low_surrogate (u : N) : bool := ((56320 <=? u) && (u <=? 57343))%N.
Definition surrogate_pair (hi lo : N) : N :=
  (65536 + (hi - 55296) * 1024 + (lo - 56320))%N.

(** The character a two-character escape stands for. *)
Definition simple_escape (e : ascii) : option ascii :=
  if Ascii.eqb e dquote then Some dquote
  else if Ascii.eqb e backslash then Some backslash
  else if Ascii.eqb e "/" then Some "/"%char
  else if Ascii.eqb e "b" then Some "008"%char
  else if Ascii.eqb e "f" then Some "012"%char
  else if Ascii.eqb e "n" then Some "010"%char
  else if Ascii.eqb e "r" then Some "013"%char
  else if Ascii.eqb e "t" then Some "009"%char
  else None.

Definition prepend (p : string) (r : option (string * string)) : option (string * string) :=
  match r with
  | Some (t, rest) => Some (p +:+ t, rest)
  | None => None
  end.

(** The characters of a string literal after its opening quote, up to and
    including the closing quote: the string denoted and what follows it. *)
Fixpoint parse_chars (s : string) : option (string * string) :=
  match s with
  | EmptyString => None
  | String c r =>
      if Ascii.eqb c dquote then Some (EmptyString, r)
      else if Ascii.eqb c backslash then
        match r with
        | EmptyString => None
        | String e r1 =>
            match simple_escape e with
            | Some ch => prepend (String ch EmptyString) (parse_chars r1)
            | None =>
                if Ascii.eqb e "u" then
                  match r1 with
                  | String h1 (String h2 (String h3 (String h4 r2))) =>
                      match hex4 h1 h2 h3 h4 with
                      | None => None
                      | Some u =>
                          if is_high_surrogate u then
                            match r2 with
                            | String b1 (String b2 (String g1 (String g2 (String g3 (String g4 r3))))) =>
                                match hex4 g1 g2 g3 g4 with
                                | Some lo =>
                                    if Ascii.eqb b1 backslash && Ascii.eqb b2 "u"
                                       && is_low_surrogate lo
                                    then prepend (utf8 (surrogate_pair u lo)) (parse_chars r3)
                                    else prepend (utf8 u) (parse_chars r2)
                                | None => prepend (utf8 u) (parse_chars r2)
                                end
                            | _ => prepend (utf8 u) (parse_chars r2)
                            end
                          else prepend (utf8 u) (parse_chars r2)
                      end
                  | _ => None
                  end
                else None
            end
        end
      else if (N_of_ascii c <? 32)%N then None
      else prepend (String c EmptyString) (parse_chars r)
  end.

Definition expect (c : ascii) (s : string) : option string :=
  match s with
  | String c' r => if Ascii.eqb c' c then Some r else None
  | EmptyString => None
  end.

Fixpoint strip_prefix (p s : string) : option string :=
  match p with
  | EmptyString => Some s
  | String c p' =>
      match expect c s with
      | Some r => strip_prefix p' r
      | None => None
      end
  end.

Section Containers.

(** The parser of one value, as the callers below are given it. *)
Variable parse_item : string -> option (json * string).

(** The elements of an array after its opening bracket (the array is not
    empty), up to and including the closing bracket. *)
Fixpoint parse_elements (fuel : nat) (s : string) : option (list json * string) :=
  match fuel with
  | O => None
  | S fuel' =>
      match parse_item s with
      | None => None
      | Some (v, r) =>
          match skip_ws r with
          | String c r' =>
              if Ascii.eqb c "," then
                match parse_elements fuel' r' with
                | Some (vs, r'') => Some (v :: vs, r'')
                | None => None
                end
              else if Ascii.eqb c "]" then Some ([v], r')
              else None
          | EmptyString => None
          end
      end
  end.

(** The members of an object after its opening brace (the object is not
    empty), up to and including the closing brace. *)
Fixpoint parse_members (fuel : nat) (s : string) : option (list (string * json) * string) :=
  match fuel with
  | O => None
  | S fuel' =>
      match expect dquote (skip_ws s) with
      | None => None
      | Some r0 =>
          match parse_chars r0 with
          | None => None
          | Some (k, r1) =>
              match expect ":" (skip_ws r1) with
              | None => None
              | Some r2 =>
                  match parse_item r2 with
                  | None => None
                  | Some (v, r3) =>
                      match skip_ws r3 with
                      | String c r4 =>
                          if Ascii.eqb c "," then
                            match parse_members fuel' r4 with
                            | Some (kvs, r5) => Some ((k, v) :: kvs, r5)
                            | None => None
                            end
                          else if Ascii.eqb c "}" then Some ([(k, v)], r4)
                          else None
                      | EmptyString => None
                      end
                  end
              end
          end
      end
  end.

End Containers.

(** One value, blanks before it skipped: the value and what follows it.
    [fuel] bounds the nesting depth and the number of elements. *)
Fixpoint parse_value (fuel : nat) (s : string) : option (json * string) :=
  match fuel with
  | O => None
  | S fuel' =>
      match skip_ws s with
      | EmptyString => None
      | String c r =>
          if Ascii.eqb c "[" then
            match expect "]" (skip_ws r) with
            | Some r' => Some (JArray [], r')
            | None =>
                match parse_elements (parse_value fuel') fuel' r with
                | Some (vs, r') => Some (JArray vs, r')
                | None => None
                end
            end
          else if Ascii.eqb c "{" then
            match expect "}" (skip_ws r) with
            | Some r' => Some (JObject [], r')
            | None =>
                match parse_members (parse_value fuel') fuel' r with
                | Some (kvs, r') => Some (JObject kvs, r')
                | None => None
                end
            end
          else if Ascii.eqb c dquote then
            match parse_chars r with
            | Some (t, r') => Some (JString t, r')
            | None => None
            end
          else if Ascii.eqb c "t" then
            match strip_prefix "rue" r with
            | Some r' => Some (JBool true, r')
            | None => None
            end
          else if Ascii.eqb c "f" then
            match strip_prefix "alse" r with
            | Some r' => Some (JBool false, r')
            | None => None
            end
          else if Ascii.eqb c "n" then
            match strip_prefix "ull" r with
            | Some r' => Some (JNull, r')
            | None => None
            end
          else
            match parse_number (String c r) with
            | Some (n, r') => Some (JNumber n, r')
            | None => None
            end
      end
  end.

(** [JSON.parse(text)]: one value and nothing but blanks after it; [None]
    is the SyntaxError. *)
Definition parse (text : string) : option json :=
  match parse_value (S (String.length text)) text with
  | Some (v, r) =>
      match skip_ws r with
      | EmptyString => Some v
      | String _ _ => None
      end
  | None => None
  end.

End JSON.

(* ===================================================================== *)
(** ** Host platform: the process, the file system and paths *)
(* ===================================================================== *)

Record Env := {
  XDG_RUNTIME_DIR : option string;
  TMPDIR : option string;
  TMP : option string;
  TEMP : option string;
}.

Record Process := {
  platform : string;
  pid : option Z;      (* process.pid; [None] when the host defines none *)
  env : Env;
}.

(** What the program consults outside itself.  The answers are fixed for the
    time of one call. *)
Record World := {
  process : Process;
  realpathSync : string -> option string;  (* [None]: the path does not exist, fs raises *)
  existsSync : string -> bool;
  accepts : string -> bool;                (* net.createConnection(path) connects *)
}.

Module Path.

Definition sep : string := "/".

Fixpoint ends_with_sep (s : string) : bool :=
  match s with
  | EmptyString => false
  | String c EmptyString => Ascii.eqb c "/"
  | String _ r => ends_with_sep r
  end.

(** [path.join(prefix, ...segments)] on POSIX, for a canonical absolute
    [prefix] (what [realpathSync] returns) and plain file names. *)
Definition join (prefix : string) (segments : list string) : string :=
  fold_left (fun acc seg => if ends_with_sep acc then acc +:+ seg else acc +:+ sep +:+ seg)
            segments prefix.

(** The part of [s] before its last separator, when it has one. *)
Fixpoint before_last_sep (s : string) : option string :=
  match s with
  | EmptyString => None
  | String c r =>
      match before_last_sep r with
      | Some d => Some (String c d)
      | None => if Ascii.eqb c "/" then Some EmptyString else None
      end
  end.

(** [path.dirname(p)] on POSIX, for a path that does not end in a separator. *)
Definition dirname (p : string) : string :=
  match before_last_sep p with
  | Some EmptyString => "/"
  | Some d => d
  | None => "."
  end.

End Path.

(* ===================================================================== *)
(** ** eventEmitter.ts *)
(* ===================================================================== *)

Module EventEmitter.

Section Listeners.

(** The callbacks an emitter holds.  A closure of the program is represented
    by a tag; the emitter's owner says what each tag runs. *)
Context {L : Type}.

(** [on(event, callback)]. *)
Definition on (event : string) (callback : L) (listeners : gmap string (list L))
  : gmap string (list L) :=
  match listeners !! event with
  | None => <[event := [callback]]> listeners
  | Some eventListeners => <[event := eventListeners ++ [callback]]> listeners
  end.

(** [this.#listeners.get(event) ?? []], what [emit] iterates over. *)
Definition get (event : string) (listeners : gmap string (list L)) : list L :=
  match listeners !! event with
  | Some eventListeners => eventListeners
  | None => []
  end.

End Listeners.

End EventEmitter.

(* ===================================================================== *)
(** ** ipcTransport.ts: data *)
(* ===================================================================== *)

Inductive IPC_OPERATION := HANDSHAKE | FRAME | CLOSE | PING | PONG.

Definition op_code (operation : IPC_OPERATION) : Z :=
  match operation with
  | HANDSHAKE => 0
  | FRAME => 1
  | CLOSE => 2
  | PING => 3
  | PONG => 4
  end.

Definition op_of_code (n : Z) : option IPC_OPERATION :=
  match n with
  | 0 => Some HANDSHAKE
  | 1 => Some FRAME
  | 2 => Some CLOSE
  | 3 => Some PING
  | 4 => Some PONG
  | _ => None
  end.

(** [IPC_OPERATION[n]] inside a template literal: the reverse mapping of the
    enum, [undefined] for a number that names no member. *)
Definition op_name (n : Z) : string :=
  match op_of_code n with
  | Some HANDSHAKE => "HANDSHAKE"
  | Some FRAME => "FRAME"
  | Some CLOSE => "CLOSE"
  | Some PING => "PING"
  | Some PONG => "PONG"
  | None => "undefined"
  end.

Inductive ReadyState := rs_opening | rs_open | rs_readOnly | rs_writeOnly | rs_closed.

(** A [net.Socket], as far as the transport uses one. *)
Record Socket := {
  sock_path : string;
  readyState : ReadyState;
  incoming : list Buffer;   (* what successive read() calls return *)
  outgoing : list Buffer;   (* the buffers given to write(), oldest first *)
  ended : bool;             (* end() was called *)
  on_readable : nat;        (* handlers attached by on("readable") *)
  once_close : nat;         (* handlers attached by once("close") *)
}.

(** The closures the program registers on the transport's emitter. *)
Inductive Listener :=
| ClientOnMessage     (* client.ts, the constructor: (message) => ... *)
| TransportOnClose.   (* ipcTransport.ts, connect: (reason) => ... *)

Inductive Channel := OnTransport | OnClient.

(** One call of [emit]: on which emitter, the event, the arguments. *)
Inductive Publication := Published (c : Channel) (event : any) (args : list any).

(** The client, its transport and the sockets created so far.  The transport
    refers to its socket by the index in [sockets], so that a socket lives
    on, with its handlers, when the transport forgets it.  The listeners of
    the client are the application's; [log] records every call of [emit], on
    the transport and on the client, oldest first. *)
Record State := {
  clientId : string;                         (* Client.clientId *)
  sockets : list Socket;                     (* the net.Socket objects *)
  socket : option nat;                       (* IpcTransport.socket *)
  listeners : gmap string (list Listener);   (* the #listeners of the transport *)
  log : list Publication;
}.

(* ===================================================================== *)
(** ** Effects: state and exceptions *)
(* ===================================================================== *)

(** A computation reads and updates the [State] and returns or raises; what
    it did before raising stays done. *)
Definition M (A : Type) : Type := State -> Outcome A * State.

#[export] Instance M_ret : MRet M := fun A a st => (Return a, st).

#[export] Instance M_bind : MBind M := fun A B k m st =>
  match m st with
  | (Return a, st') => k a st'
  | (Throw e, st') => (Throw e, st')
  end.

Definition throw {A} (e : JsError) : M A := fun st => (Throw e, st).

Definition lift {A} (o : Outcome A) : M A := fun st => (o, st).

Definition get_state : M State := fun st => (Return st, st).

Definition modify (f : State -> State) : M unit := fun st => (Return tt, f st).

Definition set_socket (r : option nat) (st : State) : State :=
  {| clientId := clientId st; sockets := sockets st; socket := r;
     listeners := listeners st; log := log st |}.

Definition set_sockets (l : list Socket) (st : State) : State :=
  {| clientId := clientId st; sockets := l; socket := socket st;
     listeners := listeners st; log := log st |}.

Definition set_listeners (ls : gmap string (list Listener)) (st : State) : State :=
  {| clientId := clientId st; sockets := sockets st; socket := socket st;
     listeners := ls; log := log st |}.

Definition add_log (p : Publication) (st : State) : State :=
  {| clientId := clientId st; sockets := sockets st; socket := socket st;
     listeners := listeners st; log := log st ++ [p] |}.

(** The socket object [this.socket] refers to. *)
Definition the_socket (st : State) : option Socket :=
  match socket st with
  | Some i => sockets st !! i
  | None => None
  end.

(** An update of the object [this.socket] refers to; nothing without one
    (the optional call [this.socket?.m()]). *)
Definition update_socket (f : Socket -> Socket) (st : State) : State :=
  match socket st with
  | Some i => set_sockets (alter f i (sockets st)) st
  | None => st
  end.

Definition sock_write (data : Buffer) (s : Socket) : Socket :=
  {| sock_path := sock_path s; readyState := readyState s; incoming := incoming s;
     outgoing := outgoing s ++ [data]; ended := ended s;
     on_readable := on_readable s; once_close := once_close s |}.

Definition sock_set_incoming (l : list Buffer) (s : Socket) : Socket :=
  {| sock_path := sock_path s; readyState := readyState s; incoming := l;
     outgoing := outgoing s; ended := ended s;
     on_readable := on_readable s; once_close := once_close s |}.

Definition sock_on_readable (s : Socket) : Socket :=
  {| sock_path := sock_path s; readyState := readyState s; incoming := incoming s;
     outgoing := outgoing s; ended := ended s;
     on_readable := S (on_readable s); once_close := once_close s |}.

Definition sock_once_close (s : Socket) : Socket :=
  {| sock_path := sock_path s; readyState := readyState s; incoming := incoming s;
     outgoing := outgoing s; ended := ended s;
     on_readable := on_readable s; once_close := S (once_close s) |}.

Definition sock_end (s : Socket) : Socket :=
  {| sock_path := sock_path s; readyState := readyState s; incoming := incoming s;
     outgoing := outgoing s; ended := true;
     on_readable := on_readable s; once_close := once_close s |}.

(** The socket has emitted [close]: it is closed and its one-shot handlers
    are spent. *)
Definition sock_closed (s : Socket) : Socket :=
  {| sock_path := sock_path s; readyState := rs_closed; incoming := incoming s;
     outgoing := outgoing s; ended := ended s;
     on_readable := on_readable s; once_close := O |}.

(* ===================================================================== *)
(** ** The two emitters *)
(* ===================================================================== *)

Definition str (s : string) : any := Some (JString s).

(** [this.client.emit(event, ...args)]: the client's listeners are the
    application's; the call is recorded. *)
Definition client_emit (event : any) (args : list any) : M unit :=
  modify (add_log (Published OnClient event args)).

(** [v.key] for a value that may be [undefined]. *)
Definition prop_of (v : any) (key : string) : Outcome any :=
  match v with
  | None => Throw TypeError
  | Some j => get_prop j key
  end.

(** [v === s] for a string literal [s]. *)
Definition is_string (v : any) (s : string) : bool :=
  match v with
  | Some (JString t) => String.eqb t s
  | _ => false
  end.

Definition first_arg (args : list any) : any :=
  match args with
  | a :: _ => a
  | [] => None
  end.

(** What each registered closure runs. *)
Definition run_listener (l : Listener) (args : list any) : M unit :=
  match l with
  | ClientOnMessage =>
      let message := first_arg args in
      cmd ← lift (prop_of message "cmd");
      ready ← (if is_string cmd "DISPATCH"
               then evt ← lift (prop_of message "evt"); mret (is_string evt "READY")
               else mret false);
      if ready : bool
      then client_emit (str "ready") []
      else evt ← lift (prop_of message "evt");
           data ← lift (prop_of message "data");
           client_emit evt [data]
  | TransportOnClose =>
      let reason := first_arg args in
      modify (set_socket None);;
      client_emit (str "close") [reason]
  end.

Fixpoint run_listeners (ls : list Listener) (args : list any) : M unit :=
  match ls with
  | [] => mret tt
  | l :: rest => run_listener l args;; run_listeners rest args
  end.

(** [this.emit(event, ...args)] on the transport. *)
Definition transport_emit (event : string) (args : list any) : M unit :=
  modify (add_log (Published OnTransport (str event) args));;
  st ← get_state;
  run_listeners (EventEmitter.get event (listeners st)) args.

(** [this.on(event, callback)] on the transport. *)
Definition transport_on (event : string) (callback : Listener) : M unit :=
  modify (fun st => set_listeners (EventEmitter.on event callback (listeners st)) st).

(* ===================================================================== *)
(** ** ipcTransport.ts: the frame codec *)
(* ===================================================================== *)

(** [payload ? Buffer.from(JSON.stringify(payload)) : Buffer.alloc(0)]. *)
Definition payload_bytes (payload : any) : Buffer :=
  match payload with
  | Some v => if truthy payload then Buf.from (JSON.stringify v) else Buf.alloc 0
  | None => Buf.alloc 0
  end.

(** The bytes [send] gives to [write]: an 8-byte header, the operation and
    the payload length as little-endian unsigned 32-bit integers, then the
    payload, the JSON text of a truthy [payload] and nothing otherwise. *)
Definition encode (operation : IPC_OPERATION) (payload : any) : Outcome Buffer :=
  let dataBuffer := payload_bytes payload in
  match Buf.writeUInt32LE (Buf.alloc 8) (op_code operation) 0 with
  | Throw e => Throw e
  | Return packet =>
      match Buf.writeUInt32LE packet (Z.of_nat (List.length dataBuffer)) 4 with
      | Throw e => Throw e
      | Return packet' => Return (Buf.concat [packet'; dataBuffer])
      end
  end.

(** What the read handler makes of the bytes of one cycle. *)
Inductive Decoded :=
| NoData                                   (* nothing was read: the handler returns *)
| Malformed                                (* the diagnostic is published, the bytes are dropped *)
| Frame (op : Z) (parsedData : json).      (* a frame to dispatch *)

(** The checks of the read handler, from [if (data.length < 8)] to the end of
    the [try] around [JSON.parse]. *)
Definition decode (data : Buffer) : Outcome Decoded :=
  if (List.length data <? 8)%nat then
    if (List.length data =? 0)%nat then Return NoData else Return Malformed
  else
    match Buf.readUInt32LE data 0 with
    | Throw e => Throw e
    | Return op =>
        match Buf.readUInt32LE data 4 with
        | Throw e => Throw e
        | Return length =>
            if negb (Z.of_nat (List.length data) =? length + 8) then Return Malformed
            else
              match JSON.parse (Buf.toString (Buf.subarray data 8 (Z.to_nat (length + 8)))) with
              | None => Return Malformed
              | Some parsedData => Return (Frame op parsedData)
              end
        end
    end.

(* ===================================================================== *)
(** ** ipcTransport.ts: the transport *)
(* ===================================================================== *)

(** [get isConnected()]. *)
Definition isConnected (st : State) : bool :=
  match the_socket st with
  | Some s => match readyState s with rs_open => true | _ => false end
  | None => false
  end.

(** [send(operation, payload)]. *)
Definition send (operation : IPC_OPERATION) (payload : any) : M unit :=
  client_emit (str "debug")
    [str ("CLIENT => SERVER | OPCODE." +:+ op_name (op_code operation) +:+ " |"); payload];;
  packet ← lift (encode operation payload);
  modify (update_socket (sock_write packet)).


(** [this.socket?.read()]: the next chunk, [None] when there is none (or no
    socket). *)
Definition socket_read : M (option Buffer) := fun st =>
  match the_socket st with
  | Some s =>
      match incoming s with
      | chunk :: rest => (Return (Some chunk), update_socket (sock_set_incoming rest) st)
      | [] => (Return None, st)
      end
  | None => (Return None, st)
  end.

(** The [while (true)] loop of the read handler; it leaves by one of its two
    [break]s before [fuel] runs out when [fuel] exceeds the number of
    chunks waiting (see [read_loop_drains]). *)
Fixpoint read_loop (fuel : nat) (data : Buffer) : M Buffer :=
  match fuel with
  | O => mret data
  | S fuel' =>
      st ← get_state;
      if negb (isConnected st) then mret data
      else
        chunk ← socket_read;
        match chunk with
        | None => mret data
        | Some chunk =>
            client_emit (str "debug") [str ("SERVER => CLIENT | " +:+ Buf.hexdump chunk)];;
            read_loop fuel' (Buf.concat [data; chunk])
        end
  end.

Definition malformed_packet : M unit :=
  client_emit (str "debug") [str "SERVER => CLIENT | Malformed packet, invalid payload"].

(** The [switch (op)] of the read handler. *)
Definition dispatch (op : Z) (parsedData : json) : M unit :=
  match op_of_code op with
  | Some FRAME => transport_emit "message" [Some parsedData]
  | Some CLOSE => transport_emit "close" [Some parsedData]
  | Some PING => send PONG (Some parsedData);; transport_emit "ping" []
  | _ => mret tt
  end.

Definition pending (st : State) : nat :=
  match the_socket st with
  | Some s => List.length (incoming s)
  | None => O
  end.

(** The handler [connect] attaches with [this.socket.on("readable", ...)]:
    one read cycle. *)
Definition readable_handler : M unit :=
  st ← get_state;
  data ← read_loop (S (pending st)) (Buf.alloc 0);
  d ← lift (decode data);
  match d with
  | NoData => mret tt
  | Malformed => malformed_packet
  | Frame op parsedData =>
      client_emit (str "debug")
        [str ("SERVER => CLIENT | OPCODE." +:+ op_name op +:+ " |"); Some parsedData];;
      dispatch op parsedData
  end.

(* ===================================================================== *)
(** ** ipcTransport.ts: locating the socket *)
(* ===================================================================== *)

(** [XDG_RUNTIME_DIR ?? TMPDIR ?? TMP ?? TEMP ?? `${path.sep}tmp`]. *)
Definition runtime_dir (e : Env) : string :=
  match XDG_RUNTIME_DIR e, TMPDIR e, TMP e, TEMP e with
  | Some d, _, _, _ => d
  | None, Some d, _, _ => d
  | None, None, Some d, _ => d
  | None, None, None, Some d => d
  | None, None, None, None => Path.sep +:+ "tmp"
  end.

(** [fs.realpathSync(...)] of the runtime directory, as the three Unix rules
    compute their prefix. *)
Definition prefix (w : World) : Outcome string :=
  let dir := runtime_dir (env (process w)) in
  match realpathSync w dir with
  | Some p => Return p
  | None => Throw (ENOENT dir)
  end.

Definition ipc_name (id : Z) : string := "discord-ipc-" +:+ JSON.string_of_Z id.

Record PathRule := {
  rule_platform : list string;
  format : World -> Z -> Outcome string;
}.

Definition pathList : list PathRule := [
  {| rule_platform := ["win32"];
     format := fun _ id => Return ("\\?\pipe\discord-ipc-" +:+ JSON.string_of_Z id) |};
  (* MacOS and Linux *)
  {| rule_platform := ["darwin"; "linux"];
     format := fun w id =>
       match prefix w with
       | Return p => Return (Path.join p [ipc_name id])
       | Throw e => Throw e
       end |};
  (* Linux (Snap) *)
  {| rule_platform := ["linux"];
     format := fun w id =>
       match prefix w with
       | Return p => Return (Path.join p ["snap.discord"; ipc_name id])
       | Throw e => Throw e
       end |};
  (* Linux (Flatpak) *)
  {| rule_platform := ["linux"];
     format := fun w id =>
       match prefix w with
       | Return p => Return (Path.join p ["app"; "com.discordapp.Discord"; ipc_name id])
       | Throw e => Throw e
       end |}
].

Definition includes (l : list string) (s : string) : bool := existsb (String.eqb s) l.

Definition new_socket (path : string) : Socket :=
  {| sock_path := path; readyState := rs_open; incoming := []; outgoing := [];
     ended := false; on_readable := O; once_close := O |}.

(** [createSocket(path).catch(() => undefined)]: a connected socket, or
    [undefined] when the connection is refused. *)
Definition createSocket (w : World) (path : string) : M (option nat) := fun st =>
  if accepts w path
  then (Return (Some (List.length (sockets st))),
        set_sockets (sockets st ++ [new_socket path]) st)
  else (Return None, st).

(** The closure [handleSocketId] of [getSocket], for the rule [pat]. *)
Definition handleSocketId (w : World) (pat : PathRule) (id : Z) : M (option nat) :=
  if negb (includes (rule_platform pat) (platform (process w))) then mret None
  else
    socketPath ← lift (format pat w id);
    if negb (String.eqb (platform (process w)) "win32")
       && negb (existsSync w (Path.dirname socketPath))
    then mret None
    else createSocket w socketPath.

(** [for (let i = 0; i < 10; i++)], leaving at the first socket. *)
Fixpoint try_ids (w : World) (pat : PathRule) (ids : list Z) : M (option nat) :=
  match ids with
  | [] => mret None
  | i :: rest =>
      r ← handleSocketId w pat i;
      match r with
      | Some s => mret (Some s)
      | None => try_ids w pat rest
      end
  end.

Definition socket_ids : list Z := [0; 1; 2; 3; 4; 5; 6; 7; 8; 9].

(** [for (const pat of pathList)], leaving at the first socket. *)
Fixpoint try_rules (w : World) (pats : list PathRule) : M (option nat) :=
  match pats with
  | [] => mret None
  | pat :: rest =>
      r ← try_ids w pat socket_ids;
      match r with
      | Some s => mret (Some s)
      | None => try_rules w rest
      end
  end.

(** [getSocket()]. *)
Definition getSocket (w : World) : M nat :=
  st ← get_state;
  match socket st with
  | Some s => mret s
  | None =>
      r ← try_rules w pathList;
      match r with
      | Some s => mret s
      | None => throw (Error "Could not connect")
      end
  end.

(** [connect()]. *)
Definition connect (w : World) : M unit :=
  st ← get_state;
  match socket st with
  | Some _ => mret tt
  | None => s ← getSocket w; modify (set_socket (Some s))
  end;;
  transport_emit "open" [];;
  st ← get_state;
  send HANDSHAKE (Some (JObject [("v", JNumber 1); ("client_id", JString (clientId st))]));;
  st ← get_state;
  match socket st with
  | Some _ => modify (update_socket sock_on_readable)
  | None => throw TypeError
  end;;
  transport_on "close" TransportOnClose.

(** What a promise returned to the caller has done so far. *)
Inductive Promise := Resolved | Waiting.

Definition closed_by_client : json :=
  JObject [("code", JNumber (-1)); ("message", JString "Closed by client")].

(** [close()] up to its return: either it resolves at once, or it attaches
    [on_socket_close] to the socket's [close] event and ends the stream. *)
Definition close : M Promise :=
  st ← get_state;
  match socket st with
  | None => mret Resolved
  | Some _ =>
      modify (update_socket sock_once_close);;
      modify (update_socket sock_end);;
      mret Waiting
  end.

(** The callback [close] attached with [this.socket.once("close", ...)];
    after it the promise is resolved. *)
Definition on_socket_close : M Promise :=
  transport_emit "close" [Some closed_by_client];;
  modify (set_socket None);;
  mret Resolved.

(* ===================================================================== *)
(** ** What the sockets do to the program *)
(* ===================================================================== *)

Fixpoint repeat_M (n : nat) (m : M unit) : M unit :=
  match n with
  | O => mret tt
  | S n' => m;; repeat_M n' m
  end.

(** Socket [i] receives [chunks] and emits [readable]: every handler
    attached to it runs. *)
Definition socket_readable (i : nat) (chunks : list Buffer) : M unit := fun st =>
  match sockets st !! i with
  | None => (Return tt, st)
  | Some s =>
      repeat_M (on_readable s) readable_handler
        (set_sockets (alter (fun s => sock_set_incoming (incoming s ++ chunks) s) i (sockets st)) st)
  end.

(** Socket [i] emits [close]: it is closed, and every one-shot handler
    attached to it runs once. *)
Definition socket_closed (i : nat) : M unit := fun st =>
  match sockets st !! i with
  | None => (Return tt, st)
  | Some s =>
      repeat_M (once_close s) (on_socket_close;; mret tt)
        (set_sockets (alter sock_closed i (sockets st)) st)
  end.

(* ===================================================================== *)
(** ** client.ts *)
(* ===================================================================== *)

Inductive ActivityType := Playing | Listening | Watching | Competing.

Definition ActivityType_value (t : ActivityType) : Z :=
  match t with
  | Playing => 0
  | Listening => 2
  | Watching => 3
  | Competing => 5
  end.

(** The interfaces of client.ts; an optional property is an [option].  A
    timestamp is taken in its [number] form. *)
Record ActivityTimestamps := {
  start : option Z;
  end_ : option Z;
}.

Record ActivityAssets := {
  large_image : option string;
  large_text : option string;
  small_image : option string;
  small_text : option string;
}.

Record ActivityButton := {
  label : string;
  url : string;
}.

Record Activity := {
  state : option string;
  details : option string;
  timestamps : option ActivityTimestamps;
  assets : option ActivityAssets;
  buttons : option (list ActivityButton);
  type : option ActivityType;
}.

(** The JavaScript object a value of these interfaces is: the properties
    present, in the order of the interface. *)
Definition member {A} (key : string) (to_json : A -> json) (o : option A)
  : list (string * json) :=
  match o with
  | Some a => [(key, to_json a)]
  | None => []
  end.

Definition json_of_timestamps (t : ActivityTimestamps) : json :=
  JObject (member "start" JNumber (start t) ++ member "end" JNumber (end_ t)).

Definition json_of_assets (a : ActivityAssets) : json :=
  JObject (member "large_image" JString (large_image a)
           ++ member "large_text" JString (large_text a)
           ++ member "small_image" JString (small_image a)
           ++ member "small_text" JString (small_text a)).

Definition json_of_button (b : ActivityButton) : json :=
  JObject [("label", JString (label b)); ("url", JString (url b))].

Definition json_of_activity (a : Activity) : json :=
  JObject (member "state" JString (state a)
           ++ member "details" JString (details a)
           ++ member "timestamps" json_of_timestamps (timestamps a)
           ++ member "assets" json_of_assets (assets a)
           ++ member "buttons" (fun bs => JArray (map json_of_button bs)) (buttons a)
           ++ member "type" (fun t => JNumber (ActivityType_value t)) (type a)).

(** [if (x) cleaned.p = x] for a string and for a number. *)
Definition keep_string (o : option string) : option string :=
  match o with
  | Some s => if String.eqb s EmptyString then None else Some s
  | None => None
  end.

Definition keep_number (o : option Z) : option Z :=
  match o with
  | Some n => if n =? 0 then None else Some n
  | None => None
  end.

(** [Object.entries(o).length], the number of properties present. *)
Definition count {A} (o : option A) : nat := match o with Some _ => 1 | None => 0 end.

Definition entries_timestamps (t : ActivityTimestamps) : nat :=
  (count (start t) + count (end_ t))%nat.

Definition entries_assets (a : ActivityAssets) : nat :=
  (count (large_image a) + count (large_text a)
   + count (small_image a) + count (small_text a))%nat.

(** The object [cleaned] that [setActivity] builds before it sends. *)
Definition cleaned (activity : Activity) : Activity :=
  {| state := keep_string (state activity);
     details := keep_string (details activity);
     timestamps :=
       match timestamps activity with
       | Some t =>
           if (0 <? entries_timestamps t)%nat
           then Some {| start := keep_number (start t); end_ := keep_number (end_ t) |}
           else None
       | None => None
       end;
     assets :=
       match assets activity with
       | Some a =>
           if (0 <? entries_assets a)%nat
           then Some {| large_image := keep_string (large_image a);
                        large_text := keep_string (large_text a);
                        small_image := keep_string (small_image a);
                        small_text := keep_string (small_text a) |}
           else None
       | None => None
       end;
     buttons :=
       match buttons activity with
       | Some bs =>
           if (0 <? List.length bs)%nat
           then Some (map (fun button => {| label := label button; url := url button |}) bs)
           else None
       | None => None
       end;
     type :=
       match type activity with
       | Some t =>
           if ActivityType_value t =? 0 then None
           else if existsb (Z.eqb (ActivityType_value t))
                     (map ActivityType_value [Playing; Listening; Watching; Competing])
                then Some Playing
                else Some t
       | None => None
       end |}.

(** [new Client({ clientId })]: the transport with the constructor's
    [message] listener, and no socket. *)
Definition new_Client (id : string) : State :=
  {| clientId := id; sockets := []; socket := None;
     listeners := EventEmitter.on "message" ClientOnMessage ∅; log := [] |}.

(** [login()]. *)
Definition login (w : World) : M unit := connect w.

(** [#request(cmd, args)]; [nonce] is the fresh UUID.  A property whose
    value is [undefined] has no part in the JSON text, and is left out. *)
Definition request (cmd : string) (args : any) (nonce : string) : M unit :=
  send FRAME
    (Some (JObject ([("cmd", JString cmd)] ++ member "args" id args
                    ++ [("nonce", JString nonce)]))).

(** [process.pid ?? 0]. *)
Definition process_pid (w : World) : Z :=
  match pid (process w) with
  | Some p => p
  | None => 0
  end.

(** [(pid ?? process) ? (process.pid ?? 0) : 0]; [process] is an object,
    hence truthy. *)
Definition pid_field (w : World) (pid : option Z) : Z :=
  let guard :=
    match pid with
    | Some n => negb (n =? 0)
    | None => true
    end in
  if guard then process_pid w else 0.

(** [setActivity(activity, pid)]. *)
Definition setActivity (w : World) (nonce : string) (activity : Activity) (pid : option Z)
  : M unit :=
  let _ := cleaned activity in
  request "SET_ACTIVITY"
    (Some (JObject [("pid", JNumber (pid_field w pid));
                    ("activity", json_of_activity activity)]))
    nonce.

(** [clearActivity(pid)]. *)
Definition clearActivity (w : World) (nonce : string) (pid : option Z) : M unit :=
  request "CLEAR_ACTIVITY" (Some (JObject [("pid", JNumber (pid_field w pid))])) nonce.

(** [destroy()]. *)
Definition destroy : M Promise := close.

(* ===================================================================== *)
(** ** Vocabulary of the statements *)
(* ===================================================================== *)

(** The four bytes of an unsigned 32-bit integer, least significant first. *)
Definition u32le (v : Z) : Buffer :=
  [byte_of_Z v; byte_of_Z (v / 2 ^ 8); byte_of_Z (v / 2 ^ 16); byte_of_Z (v / 2 ^ 24)].

(** The length field of a payload holds it.  The host cannot build a longer
    text: a JavaScript string has fewer than 2^30 code units, at most three
    UTF-8 bytes each.  The values of this model have no such bound, so the
    statements about frames that are sent assume it. *)
Definition representable (payload : any) : Prop :=
  Z.of_nat (List.length (payload_bytes payload)) <= u32_max.

(** The state with more publications recorded. *)
Definition with_log (l : list Publication) (st : State) : State :=
  {| clientId := clientId st; sockets := sockets st; socket := socket st;
     listeners := listeners st; log := log st ++ l |}.

(** The diagnostics of the read handler and of [send]. *)
Definition debug_chunk (chunk : Buffer) : Publication :=
  Published OnClient (str "debug") [str ("SERVER => CLIENT | " +:+ Buf.hexdump chunk)].

Definition debug_malformed : Publication :=
  Published OnClient (str "debug")
    [str "SERVER => CLIENT | Malformed packet, invalid payload"].

Definition debug_received (op : Z) (parsedData : json) : Publication :=
  Published OnClient (str "debug")
    [str ("SERVER => CLIENT | OPCODE." +:+ op_name op +:+ " |"); Some parsedData].

Definition debug_sent (operation : IPC_OPERATION) (payload : any) : Publication :=
  Published OnClient (str "debug")
    [str ("CLIENT => SERVER | OPCODE." +:+ op_name (op_code operation) +:+ " |"); payload].

(** The transport holds socket [i], which is open, has nothing waiting to be
    read, and carries the one read handler of [connect]. *)
Record Connected (st : State) (i : nat) (s : Socket) : Prop := {
  conn_ref : socket st = Some i;
  conn_obj : sockets st !! i = Some s;
  conn_open : readyState s = rs_open;
  conn_idle : incoming s = [];
  conn_handler : on_readable s = 1%nat;
}.

(** The listeners of the transport for [event]. *)
Definition heard (st : State) (event : string) : list Listener :=
  EventEmitter.get event (listeners st).

(** The state after [data] was written to socket [i]. *)
Definition written (i : nat) (data : Buffer) (st : State) : State :=
  set_sockets (alter (sock_write data) i (sockets st)) st.

(** [v.a.b...] on a parsed value, [undefined] where a step has nothing. *)
Fixpoint field (path : list string) (v : json) : any :=
  match path with
  | [] => Some v
  | key :: rest =>
      match v with
      | JObject members =>
          match lookup_member key members with
          | Some w => field rest w
          | None => None
          end
      | _ => None
      end
  end.

(** *** The socket locator, as section 4.2 of the specification words it *)

(** Every rule with every index, the rules in declaration order and the
    indices 0 to 9 under each. *)
Definition candidates : list (PathRule * Z) :=
  flat_map (fun pat => map (fun id => (pat, id)) socket_ids) pathList.

(** The path of a candidate that applies to the platform, whose parent
    directory exists (not checked on Windows) and which accepts the
    connection. *)
Definition usable (w : World) (c : PathRule * Z) : option string :=
  if includes (rule_platform (fst c)) (platform (process w)) then
    match format (fst c) w (snd c) with
    | Return p =>
        if (String.eqb (platform (process w)) "win32" || existsSync w (Path.dirname p))
           && accepts w p
        then Some p else None
    | Throw _ => None
    end
  else None.

Fixpoint first_usable (w : World) (cs : list (PathRule * Z)) : option string :=
  match cs with
  | [] => None
  | c :: rest =>
      match usable w c with
      | Some p => Some p
      | None => first_usable w rest
      end
  end.

Definition locate (w : World) : option string := first_usable w candidates.

(** On the platforms of the Unix rules the runtime directory resolves. *)
Definition resolvable (w : World) : bool :=
  negb (includes ["darwin"; "linux"] (platform (process w)))
  || match realpathSync w (runtime_dir (env (process w))) with
     | Some _ => true
     | None => false
     end.

(** *** States the operations leave *)

(** The socket the transport refers to, with other chunks waiting. *)
Definition refill (i : nat) (chunks : list Buffer) (st : State) : State :=
  set_sockets (alter (sock_set_incoming chunks) i (sockets st)) st.

(** The state [close] leaves when there is a socket to end. *)
Definition closing (i : nat) (st : State) : State :=
  set_sockets (alter (fun s => sock_end (sock_once_close s)) i (sockets st)) st.

(** The state after socket [i] has emitted [close]. *)
Definition shut (i : nat) (st : State) : State :=
  set_sockets (alter sock_closed i (sockets st)) st.

(** The state with one more socket, connected to [path]. *)
Definition opened (path : string) (st : State) : State :=
  set_sockets (sockets st ++ [new_socket path]) st.

(** The rule yields a path on the platforms it is for. *)
Definition formats (w : World) (pat : PathRule) : Prop :=
  includes (rule_platform pat) (platform (process w)) = true ->
  forall id, exists p, format pat w id = Return p.

(** The listeners of the transport after [n] calls of [connect]: the
    constructor's message listener, [n] close listeners, and none for the
    events [open] and [ping]. *)
Definition wired (st : State) (n : nat) : Prop :=
  heard st "message" = [ClientOnMessage]
  /\ heard st "close" = repeat TransportOnClose n
  /\ heard st "open" = []
  /\ heard st "ping" = [].

Definition handshake (id : string) : json :=
  JObject [("v", JNumber 1); ("client_id", JString id)].

(** *** What can happen to a client *)

(** The calls of the application and the events of the sockets. *)
Inductive Call :=
| CallLogin (w : World)
| CallSetActivity (w : World) (nonce : string) (activity : Activity) (pid : option Z)
| CallClearActivity (w : World) (nonce : string) (pid : option Z)
| CallDestroy
| EventReadable (i : nat) (chunks : list Buffer)
| EventClosed (i : nat).

(** The state a computation leaves, whether it returns or raises. *)
Definition after {A} (m : M A) (st : State) : State := snd (m st).

Definition perform (c : Call) (st : State) : State :=
  match c with
  | CallLogin w => after (login w) st
  | CallSetActivity w nonce activity pid => after (setActivity w nonce activity pid) st
  | CallClearActivity w nonce pid => after (clearActivity w nonce pid) st
  | CallDestroy => after destroy st
  | EventReadable i chunks => after (socket_readable i chunks) st
  | EventClosed i => after (socket_closed i) st
  end.

(** The states of a client made with [new Client({ clientId: id })]. *)
Inductive reachable (id : string) : State -> Prop :=
| reach_new : reachable id (new_Client id)
| reach_step st c : reachable id st -> reachable id (perform c st).

(** No socket carries more read handlers than [n]. *)
Definition handlers_within (n : nat) (st : State) : Prop :=
  Forall (fun s => (on_readable s <= n)%nat) (sockets st).

(** From [st] to [st'] no listener and no read handler was added. *)
Definition stable (st st' : State) : Prop :=
  listeners st' = listeners st
  /\ forall n, handlers_within n st -> handlers_within n st'.

(** A computation that adds no listener and no read handler. *)
Definition quiet {A} (m : M A) : Prop := forall st, stable st (after m st).

(** The listeners are those of [n] calls of [connect], and no socket has
    more read handlers than that. *)
Definition invariant (st : State) : Prop :=
  exists n, wired st n /\ handlers_within n st.

(** A computation that keeps the invariant. *)
Definition keeps {A} (m : M A) : Prop := forall st, invariant st -> invariant (after m st).

(** *** A world and a client to evaluate on *)

(** A Linux host whose runtime directory holds the socket of index 0. *)
Definition demo_world : World :=
  {| process := {| platform := "linux"; pid := Some 1234;
                   env := {| XDG_RUNTIME_DIR := Some "/run/user/1000"; TMPDIR := None;
                             TMP := None; TEMP := None |} |};
     realpathSync := fun p => Some p;
     existsSync := fun p => String.eqb p "/run/user/1000";
     accepts := fun p => String.eqb p "/run/user/1000/discord-ipc-0" |}.


Definition demo_client : State := new_Client "1234567890123456789".

(** The client after [login()] in [demo_world], and its socket. *)
Definition demo_state : State := snd (connect demo_world demo_client).

Definition demo_socket : Socket :=
  match sockets demo_state !! 0%nat with
  | Some s => s
  | None => new_socket EmptyString
  end.

(** The request of the scenario of section 8 of the specification. *)
Definition demo_payload : json :=
  JObject [("cmd", JString "SET_ACTIVITY");
           ("args", JObject [("pid", JNumber 1234);
                             ("activity", JObject [("state", JString "x")])]);
           ("nonce", JString "abc")].

Definition demo_activity : Activity :=
  {| state := Some "x"; details := None; timestamps := None; assets := None;
     buttons := None; type := Some Listening |}.

(** *** Frames to evaluate on *)


(** A READY message followed by the first byte of a second frame. *)
Definition ready_frame : Buffer :=
  [x01; x00; x00; x00; x20; x00; x00; x00;
   x7b; x22; x63; x6d; x64; x22; x3a; x22; x44; x49; x53; x50; x41; x54; x43; x48;
   x22; x2c; x22; x65; x76; x74; x22; x3a; x22; x52; x45; x41; x44; x59; x22; x7d].

Definition ready_message : json :=
  JObject [("cmd", JString "DISPATCH"); ("evt", JString "READY")].

(** *** Measures and conditions of the JSON proofs *)

Fixpoint size (v : json) : nat :=
  match v with
  | JArray items => S (List.length items + list_sum (map size items))
  | JObject members =>
      S (List.length members + list_sum (map (fun kv => size (snd kv)) members))
  | _ => O
  end.

Definition starts_digit (s : string) : bool :=
  match s with
  | String c _ => match JSON.digit_cons c with Some _ => true | None => false end
  | EmptyString => false
  end.

(** What may follow a value inside a text: the end, a comma or a closing
    bracket. *)
Definition terminated (rest : string) : bool :=
  match rest with
  | EmptyString => true
  | String c _ => Ascii.eqb c "," || Ascii.eqb c "]" || Ascii.eqb c "}"
  end.

(** The first character of a printed number: a minus or a digit. *)
Definition number_head (c : ascii) : bool :=
  Ascii.eqb c "-" || match JSON.digit_cons c with Some _ => true | None => false end.

Definition member_text (kv : string * json) : string :=
  JSON.quote (fst kv) +:+ ":" +:+ JSON.stringify (snd kv).

(** [pv] reads back the text of [v], whatever terminated text follows. *)
Definition parses (pv : string -> option (json * string)) (v : json) : Prop :=
  forall r, terminated r = true -> pv (JSON.stringify v +:+ r) = Some (v, r).

(* ===================================================================== *)
(** ** [JSON.parse] undoes [JSON.stringify] *)
(* ===================================================================== *)

#[local] Arguments String.append !s1 s2 : simpl nomatch.

Lemma append_assoc (a b c : string) : (a +:+ b) +:+ c = a +:+ (b +:+ c).
Proof. induction a as [|x a IH]; simpl; [reflexivity | now rewrite IH]. Qed.

Lemma append_nil_r (a : string) : a +:+ EmptyString = a.
Proof. induction a as [|x a IH]; simpl; [reflexivity | now rewrite IH]. Qed.

Lemma length_append (a b : string) :
  String.length (a +:+ b) = (String.length a + String.length b)%nat.
Proof. induction a as [|x a IH]; simpl; [reflexivity | now rewrite IH]. Qed.

Lemma terminated_cases rest :
  terminated rest = true ->
  rest = EmptyString \/ exists r, rest = String "," r \/ rest = String "]" r \/ rest = String "}" r.
Proof.
  destruct rest as [|c r]; [now left|]. simpl. intros H. right. exists r.
  apply orb_true_iff in H as [H|H]; [apply orb_true_iff in H as [H|H]|];
    apply Ascii.eqb_eq in H; subst; auto.
Qed.

Lemma terminated_no_digit rest : terminated rest = true -> starts_digit rest = false.
Proof.
  intros H. destruct (terminated_cases _ H) as [->|[r [->|[->| ->]]]]; reflexivity.
Qed.

Lemma terminated_no_fraction rest : terminated rest = true -> JSON.number_continues rest = false.
Proof.
  intros H. destruct (terminated_cases _ H) as [->|[r [->|[->| ->]]]]; reflexivity.
Qed.

Lemma parse_digits_stop rest : starts_digit rest = false -> JSON.parse_digits rest = (Decimal.Nil, rest).
Proof.
  destruct rest as [|c r]; [reflexivity|]. simpl.
  destruct (JSON.digit_cons c); [discriminate | reflexivity].
Qed.

Lemma parse_digits_string_of_uint d rest :
  starts_digit rest = false ->
  JSON.parse_digits (NilEmpty.string_of_uint d +:+ rest) = (d, rest).
Proof.
  intros H. induction d; simpl; try (rewrite IHd; reflexivity).
  now apply parse_digits_stop.
Qed.

Lemma bad_int_unorm d : JSON.bad_int (Decimal.unorm d) = false.
Proof. induction d; try reflexivity. exact IHd. Qed.

Lemma to_uint_unorm p : Decimal.unorm (Pos.to_uint p) = Pos.to_uint p.
Proof.
  rewrite <- (DecimalPos.Unsigned.to_of (Pos.to_uint p)).
  now rewrite DecimalPos.Unsigned.of_to.
Qed.

Lemma parse_int_to_uint p rest :
  terminated rest = true ->
  JSON.parse_int (NilEmpty.string_of_uint (Pos.to_uint p) +:+ rest) = Some (Z.pos p, rest).
Proof.
  intros H. unfold JSON.parse_int.
  rewrite parse_digits_string_of_uint by now apply terminated_no_digit.
  rewrite <- (to_uint_unorm p) at 1. rewrite bad_int_unorm.
  rewrite (terminated_no_fraction _ H).
  unfold Z.of_uint. now rewrite DecimalPos.Unsigned.of_to.
Qed.

Lemma string_of_uint_to_uint p :
  NilZero.string_of_uint (Pos.to_uint p) = NilEmpty.string_of_uint (Pos.to_uint p).
Proof.
  pose proof (Unsigned.to_uint_nonnil p) as H.
  destruct (Pos.to_uint p); [congruence | reflexivity ..].
Qed.

Lemma uint_head d :
  d <> Decimal.Nil ->
  exists c s, NilEmpty.string_of_uint d = String c s /\ Ascii.eqb c "-" = false
              /\ (match JSON.digit_cons c with Some _ => true | None => false end) = true.
Proof.
  intros H. destruct d; [congruence | ..]; eexists _, _; (split; [reflexivity | split; reflexivity]).
Qed.

Lemma parse_number_string_of_Z n rest :
  terminated rest = true ->
  JSON.parse_number (JSON.string_of_Z n +:+ rest) = Some (n, rest).
Proof.
  intros H. unfold JSON.string_of_Z. destruct n as [|p|p]; simpl Z.to_int; unfold NilZero.string_of_int.
  - simpl. unfold JSON.parse_int. simpl.
    rewrite parse_digits_stop by now apply terminated_no_digit.
    simpl. now rewrite (terminated_no_fraction _ H).
  - rewrite string_of_uint_to_uint.
    destruct (uint_head (Pos.to_uint p) (Unsigned.to_uint_nonnil p)) as (c & s & E & Hm & _).
    pose proof (parse_int_to_uint p rest H) as P. rewrite E in *. simpl. rewrite Hm.
    exact P.
  - rewrite string_of_uint_to_uint. simpl. rewrite parse_int_to_uint by assumption. reflexivity.
Qed.

Lemma parse_chars_escape_char c tail :
  JSON.parse_chars (JSON.escape_char c +:+ tail)
  = JSON.prepend (String c EmptyString) (JSON.parse_chars tail).
Proof.
  destruct c as [b0 b1 b2 b3 b4 b5 b6 b7].
  destruct b0, b1, b2, b3, b4, b5, b6, b7; reflexivity.
Qed.

Lemma parse_chars_escape s rest :
  JSON.parse_chars (JSON.escape s +:+ String JSON.dquote rest) = Some (s, rest).
Proof.
  induction s as [|c s IH]; [reflexivity|].
  simpl JSON.escape. rewrite append_assoc, parse_chars_escape_char, IH. reflexivity.
Qed.

Lemma parse_chars_quote s rest :
  exists body, JSON.quote s +:+ rest = String JSON.dquote body
               /\ JSON.parse_chars body = Some (s, rest).
Proof.
  exists (JSON.escape s +:+ String JSON.dquote rest). split.
  - unfold JSON.quote. simpl. now rewrite append_assoc.
  - apply parse_chars_escape.
Qed.

Lemma json_induction (P : json -> Prop) :
  P JNull -> (forall b, P (JBool b)) -> (forall n, P (JNumber n)) -> (forall s, P (JString s)) ->
  (forall items, Forall P items -> P (JArray items)) ->
  (forall members, Forall (fun kv => P (snd kv)) members -> P (JObject members)) ->
  forall v, P v.
Proof.
  intros Hnull Hbool Hnum Hstr Harr Hobj. fix IH 1.
  intros [ | b | n | s | items | members].
  - exact Hnull.
  - apply Hbool.
  - apply Hnum.
  - apply Hstr.
  - apply Harr. induction items as [|v items IHitems]; constructor; [apply IH | exact IHitems].
  - apply Hobj.
    induction members as [|kv members IHmembers]; constructor; [apply IH | exact IHmembers].
Qed.

Lemma number_head_tests c :
  number_head c = true ->
  JSON.is_ws c = false /\ Ascii.eqb c "[" = false /\ Ascii.eqb c "{" = false
  /\ Ascii.eqb c JSON.dquote = false /\ Ascii.eqb c "t" = false
  /\ Ascii.eqb c "f" = false /\ Ascii.eqb c "n" = false
  /\ Ascii.eqb c "]" = false /\ Ascii.eqb c "}" = false.
Proof.
  destruct c as [b0 b1 b2 b3 b4 b5 b6 b7].
  destruct b0, b1, b2, b3, b4, b5, b6, b7; intros H; try discriminate H;
    repeat split; reflexivity.
Qed.

Lemma string_of_Z_head n :
  exists c s, JSON.string_of_Z n = String c s /\ number_head c = true.
Proof.
  unfold JSON.string_of_Z. destruct n as [|p|p]; simpl Z.to_int; unfold NilZero.string_of_int.
  - eexists _, _; split; reflexivity.
  - rewrite string_of_uint_to_uint.
    destruct (uint_head (Pos.to_uint p) (Unsigned.to_uint_nonnil p)) as (c & s & E & Hm & Hd).
    exists c, s. split; [exact E|]. unfold number_head. now rewrite Hd, orb_true_r.
  - eexists _, _; split; reflexivity.
Qed.

(** The first character of a printed value starts a value. *)
Lemma stringify_head v :
  exists c s, JSON.stringify v = String c s /\ JSON.is_ws c = false
              /\ Ascii.eqb c "]" = false /\ Ascii.eqb c "}" = false.
Proof.
  destruct v as [ | [] | n | s | items | members];
    try (eexists _, _; repeat split; reflexivity).
  destruct (string_of_Z_head n) as (c & s & E & H).
  exists c, s. split; [exact E|]. apply number_head_tests in H. tauto.
Qed.

Lemma parse_elements_S pv fuel s :
  JSON.parse_elements pv (S fuel) s =
  match pv s with
  | None => None
  | Some (v, r) =>
      match JSON.skip_ws r with
      | String c r' =>
          if Ascii.eqb c "," then
            match JSON.parse_elements pv fuel r' with
            | Some (vs, r'') => Some (v :: vs, r'')
            | None => None
            end
          else if Ascii.eqb c "]" then Some ([v], r')
          else None
      | EmptyString => None
      end
  end.
Proof. reflexivity. Qed.

Lemma parse_members_S pv fuel s :
  JSON.parse_members pv (S fuel) s =
  match JSON.expect JSON.dquote (JSON.skip_ws s) with
  | None => None
  | Some r0 =>
      match JSON.parse_chars r0 with
      | None => None
      | Some (k, r1) =>
          match JSON.expect ":" (JSON.skip_ws r1) with
          | None => None
          | Some r2 =>
              match pv r2 with
              | None => None
              | Some (v, r3) =>
                  match JSON.skip_ws r3 with
                  | String c r4 =>
                      if Ascii.eqb c "," then
                        match JSON.parse_members pv fuel r4 with
                        | Some (kvs, r5) => Some ((k, v) :: kvs, r5)
                        | None => None
                        end
                      else if Ascii.eqb c "}" then Some ([(k, v)], r4)
                      else None
                  | EmptyString => None
                  end
              end
          end
      end
  end.
Proof. reflexivity. Qed.

Section Elements.

Variable pv : string -> option (json * string).

Lemma parse_elements_stringify items : forall fuel rest,
  Forall (parses pv) items -> items <> [] -> (List.length items <= fuel)%nat ->
  JSON.parse_elements pv fuel (Buf.join "," (map JSON.stringify items) +:+ String "]" rest)
  = Some (items, rest).
Proof.
  induction items as [|v items IH]; intros fuel rest HF Hne Hlen; [congruence|].
  inversion HF as [|? ? Hv HF']; subst.
  destruct fuel as [|fuel]; [simpl in Hlen; lia|].
  destruct items as [|v2 items].
  - change (Buf.join "," (map JSON.stringify [v])) with (JSON.stringify v).
    rewrite parse_elements_S, Hv by reflexivity. reflexivity.
  - change (Buf.join "," (map JSON.stringify (v :: v2 :: items)))
      with (JSON.stringify v +:+ "," +:+ Buf.join "," (map JSON.stringify (v2 :: items))).
    set (tl := Buf.join "," (map JSON.stringify (v2 :: items))) in *.
    rewrite !append_assoc. rewrite parse_elements_S.
    rewrite Hv by reflexivity. simpl.
    rewrite IH; [reflexivity | assumption | discriminate | simpl in *; lia].
Qed.

Lemma parse_member k v tail :
  exists body, member_text (k, v) +:+ tail = String JSON.dquote body
    /\ JSON.parse_chars body = Some (k, String ":" (JSON.stringify v +:+ tail)).
Proof.
  unfold member_text. simpl fst; simpl snd.
  destruct (parse_chars_quote k (":" +:+ JSON.stringify v +:+ tail)) as (body & E & P).
  exists body. split; [|exact P]. rewrite <- E. now rewrite !append_assoc.
Qed.

Lemma parse_members_stringify members : forall fuel rest,
  Forall (fun kv => parses pv (snd kv)) members -> members <> [] ->
  (List.length members <= fuel)%nat ->
  JSON.parse_members pv fuel (Buf.join "," (map member_text members) +:+ String "}" rest)
  = Some (members, rest).
Proof.
  induction members as [|[k v] members IH]; intros fuel rest HF Hne Hlen; [congruence|].
  inversion HF as [|? ? Hv HF']; subst. simpl in Hv.
  destruct fuel as [|fuel]; [simpl in Hlen; lia|].
  destruct members as [|kv2 members].
  - destruct (parse_member k v (String "}" rest)) as (body & E & P).
    change (Buf.join "," (map member_text [(k, v)])) with (member_text (k, v)).
    rewrite E, parse_members_S. simpl. rewrite P. simpl.
    rewrite Hv by reflexivity. reflexivity.
  - change (Buf.join "," (map member_text ((k, v) :: kv2 :: members)))
      with (member_text (k, v) +:+ "," +:+ Buf.join "," (map member_text (kv2 :: members))).
    set (tl := Buf.join "," (map member_text (kv2 :: members))) in *.
    rewrite !append_assoc.
    destruct (parse_member k v ("," +:+ tl +:+ String "}" rest)) as (body & E & P).
    rewrite E, parse_members_S. simpl. rewrite P. simpl.
    rewrite Hv by reflexivity. simpl.
    rewrite IH; [reflexivity | assumption | discriminate | simpl in *; lia].
Qed.

End Elements.

Lemma size_item_lt (items : list json) v :
  In v items -> (size v <= list_sum (map size items))%nat.
Proof.
  induction items as [|x items IH]; simpl; [tauto|].
  intros [->|H]; [lia | specialize (IH H); lia].
Qed.

Lemma size_member_lt (members : list (string * json)) kv :
  In kv members -> (size (snd kv) <= list_sum (map (fun kv => size (snd kv)) members))%nat.
Proof.
  induction members as [|x members IH]; simpl; [tauto|].
  intros [->|H]; [lia | specialize (IH H); lia].
Qed.

Lemma stringify_object members :
  JSON.stringify (JObject members)
  = "{" +:+ Buf.join "," (map member_text members) +:+ "}".
Proof. reflexivity. Qed.

Lemma parse_value_S fuel s :
  JSON.parse_value (S fuel) s =
  match JSON.skip_ws s with
  | EmptyString => None
  | String c r =>
      if Ascii.eqb c "[" then
        match JSON.expect "]" (JSON.skip_ws r) with
        | Some r' => Some (JArray [], r')
        | None =>
            match JSON.parse_elements (JSON.parse_value fuel) fuel r with
            | Some (vs, r') => Some (JArray vs, r')
            | None => None
            end
        end
      else if Ascii.eqb c "{" then
        match JSON.expect "}" (JSON.skip_ws r) with
        | Some r' => Some (JObject [], r')
        | None =>
            match JSON.parse_members (JSON.parse_value fuel) fuel r with
            | Some (kvs, r') => Some (JObject kvs, r')
            | None => None
            end
        end
      else if Ascii.eqb c JSON.dquote then
        match JSON.parse_chars r with
        | Some (t, r') => Some (JString t, r')
        | None => None
        end
      else if Ascii.eqb c "t" then
        match JSON.strip_prefix "rue" r with
        | Some r' => Some (JBool true, r')
        | None => None
        end
      else if Ascii.eqb c "f" then
        match JSON.strip_prefix "alse" r with
        | Some r' => Some (JBool false, r')
        | None => None
        end
      else if Ascii.eqb c "n" then
        match JSON.strip_prefix "ull" r with
        | Some r' => Some (JNull, r')
        | None => None
        end
      else
        match JSON.parse_number (String c r) with
        | Some (n, r') => Some (JNumber n, r')
        | None => None
        end
  end.
Proof. reflexivity. Qed.

Lemma skip_ws_cons c r :
  JSON.skip_ws (String c r) = if JSON.is_ws c then JSON.skip_ws r else String c r.
Proof. reflexivity. Qed.

(** A first element keeps the parser from reading an empty container. *)
Lemma not_closing v tail closing :
  closing = "]"%char \/ closing = "}"%char ->
  JSON.expect closing (JSON.skip_ws (JSON.stringify v +:+ tail)) = None.
Proof.
  intros Hc. destruct (stringify_head v) as (c & s & E & Hws & H1 & H2).
  rewrite E. change (String c s +:+ tail) with (String c (s +:+ tail)).
  rewrite skip_ws_cons, Hws. unfold JSON.expect.
  destruct Hc as [-> | ->]; [now rewrite H1 | now rewrite H2].
Qed.

Lemma parse_value_stringify v : forall fuel rest,
  (size v < fuel)%nat -> terminated rest = true ->
  JSON.parse_value fuel (JSON.stringify v +:+ rest) = Some (v, rest).
Proof.
  induction v as [ | b | n | s | items IH | members IH] using json_induction;
    intros [|fuel] rest Hfuel Hrest; try (exfalso; lia); rewrite parse_value_S.
  - reflexivity.
  - destruct b; reflexivity.
  - destruct (string_of_Z_head n) as (c & s & E & Hc).
    pose proof (parse_number_string_of_Z n rest Hrest) as P.
    change (JSON.stringify (JNumber n)) with (JSON.string_of_Z n).
    rewrite E in *. apply number_head_tests in Hc as (Hws & H1 & H2 & H3 & H4 & H5 & H6 & _).
    change (String c s +:+ rest) with (String c (s +:+ rest)) in *.
    rewrite skip_ws_cons, Hws, H1, H2, H3, H4, H5, H6. now rewrite P.
  - destruct (parse_chars_quote s rest) as (body & E & P).
    change (JSON.stringify (JString s)) with (JSON.quote s).
    rewrite E. simpl. now rewrite P.
  - change (JSON.stringify (JArray items))
      with ("[" +:+ Buf.join "," (map JSON.stringify items) +:+ "]").
    destruct items as [|v items]; [reflexivity|].
    set (J := Buf.join "," (map JSON.stringify (v :: items))).
    rewrite !append_assoc. simpl.
    assert (Hfirst : exists tail, J +:+ String "]" rest = JSON.stringify v +:+ tail).
    { subst J. destruct items; [now eexists | eexists; simpl; now rewrite !append_assoc]. }
    destruct Hfirst as (tail & Htail).
    rewrite Htail at 1. rewrite not_closing by now left. subst J.
    rewrite parse_elements_stringify; [reflexivity | | discriminate | simpl in *; lia].
    rewrite List.Forall_forall in *. intros x Hx r Hr. apply IH; [assumption | | assumption].
    pose proof (size_item_lt _ _ Hx) as Hsz. simpl in Hfuel, Hsz. lia.
  - rewrite stringify_object.
    destruct members as [|kv members]; [reflexivity|].
    set (J := Buf.join "," (map member_text (kv :: members))).
    rewrite !append_assoc. simpl.
    assert (Hfirst : exists tail,
      J +:+ String "}" rest = JSON.stringify (JString (fst kv)) +:+ tail).
    { subst J. change (JSON.stringify (JString (fst kv))) with (JSON.quote (fst kv)).
      destruct members as [|kv2 members].
      - exists (":" +:+ JSON.stringify (snd kv) +:+ String "}" rest).
        change (Buf.join "," (map member_text [kv])) with (member_text kv).
        unfold member_text. now rewrite !append_assoc.
      - exists (":" +:+ JSON.stringify (snd kv) +:+ ","
                +:+ Buf.join "," (map member_text (kv2 :: members)) +:+ String "}" rest).
        change (Buf.join "," (map member_text (kv :: kv2 :: members)))
          with (member_text kv +:+ "," +:+ Buf.join "," (map member_text (kv2 :: members))).
        unfold member_text at 1. now rewrite !append_assoc. }
    destruct Hfirst as (tail & Htail).
    rewrite Htail at 1. rewrite not_closing by now right. subst J.
    rewrite parse_members_stringify; [reflexivity | | discriminate | simpl in *; lia].
    rewrite List.Forall_forall in *. intros x Hx r Hr. apply IH; [assumption | | assumption].
    pose proof (size_member_lt _ _ Hx) as Hsz. simpl in Hfuel, Hsz. lia.
Qed.

Lemma join_length (f : json -> string) (g : json -> nat) items :
  Forall (fun v => (g v <= String.length (f v))%nat) items ->
  (List.length items + list_sum (map g items)
   <= S (String.length (Buf.join "," (map f items))))%nat.
Proof.
  induction 1 as [|v items Hv HF IH]; [simpl; lia|].
  destruct items as [|v2 items].
  - simpl in *. lia.
  - change (Buf.join "," (map f (v :: v2 :: items)))
      with (f v +:+ "," +:+ Buf.join "," (map f (v2 :: items))).
    rewrite !length_append. simpl in *. lia.
Qed.

Lemma size_le_length v : (size v <= String.length (JSON.stringify v))%nat.
Proof.
  induction v as [ | b | n | s | items IH | members IH] using json_induction;
    try (simpl; lia).
  - change (JSON.stringify (JArray items))
      with ("[" +:+ Buf.join "," (map JSON.stringify items) +:+ "]").
    rewrite !length_append. pose proof (join_length JSON.stringify size items IH).
    simpl in *. lia.
  - rewrite stringify_object, !length_append.
    assert (H : (List.length members + list_sum (map (fun kv => size (snd kv)) members)
                 <= S (String.length (Buf.join "," (map member_text members))))%nat).
    { clear -IH. induction IH as [|kv members Hv HF IHm]; [simpl; lia|].
      destruct members as [|kv2 members].
      - unfold member_text. simpl in *. rewrite !length_append. simpl. lia.
      - change (Buf.join "," (map member_text (kv :: kv2 :: members)))
          with (member_text kv +:+ "," +:+ Buf.join "," (map member_text (kv2 :: members))).
        unfold member_text at 1. rewrite !length_append. simpl in *. lia. }
    simpl in *. lia.
Qed.

(** [JSON.parse] undoes [JSON.stringify]. *)
Lemma parse_stringify v : JSON.parse (JSON.stringify v) = Some v.
Proof.
  unfold JSON.parse.
  rewrite <- (append_nil_r (JSON.stringify v)) at 2.
  rewrite parse_value_stringify; [reflexivity | | reflexivity].
  pose proof (size_le_length v). lia.
Qed.

(* ===================================================================== *)
(** ** The header: unsigned 32-bit integers in four bytes *)
(* ===================================================================== *)

Lemma Z_of_byte_of_Z z : Z_of_byte (byte_of_Z z) = z mod 256.
Proof.
  unfold Z_of_byte, byte_of_Z.
  assert (Hr : 0 <= z mod 256 < 256) by (apply Z.mod_pos_bound; lia).
  destruct (Byte.of_N (Z.to_N (z mod 256))) as [b|] eqn:E.
  - apply Byte.to_of_N in E. rewrite E. lia.
  - apply Byte.of_N_None_iff in E. lia.
Qed.

Lemma Z_of_byte_range b : 0 <= Z_of_byte b < 256.
Proof. unfold Z_of_byte. pose proof (Byte.to_N_bounded b). lia. Qed.

Lemma u32le_value v :
  0 <= v <= u32_max ->
  v mod 256 + (v / 2 ^ 8) mod 256 * 2 ^ 8 + (v / 2 ^ 16) mod 256 * 2 ^ 16
  + (v / 2 ^ 24) mod 256 * 2 ^ 24 = v.
Proof.
  unfold u32_max. intros H.
  change (2 ^ 8) with 256. change (2 ^ 16) with (256 * 256).
  change (2 ^ 24) with (256 * 256 * 256).
  rewrite <- !Z.div_div by lia.
  set (a := v / 256). set (b := a / 256). set (c := b / 256).
  assert (Hc : c mod 256 = c).
  { apply Z.mod_small. subst c b a. split.
    - repeat apply Z.div_pos; lia.
    - repeat (apply Z.div_lt_upper_bound; [lia|]). lia. }
  rewrite Hc.
  pose proof (Z.div_mod v 256 ltac:(lia)). pose proof (Z.div_mod a 256 ltac:(lia)).
  pose proof (Z.div_mod b 256 ltac:(lia)). fold a in H0. fold b in H1. fold c in H2. lia.
Qed.

Lemma readUInt32LE_u32le v tail :
  0 <= v <= u32_max -> Buf.readUInt32LE (u32le v ++ tail) 0 = Return v.
Proof.
  intros H. unfold Buf.readUInt32LE, u32le. simpl.
  rewrite !Z_of_byte_of_Z. f_equal. now apply u32le_value.
Qed.

Lemma readUInt32LE_second a v tail :
  0 <= v <= u32_max -> Buf.readUInt32LE (u32le a ++ u32le v ++ tail) 4 = Return v.
Proof.
  intros H. unfold Buf.readUInt32LE, u32le. simpl.
  rewrite !Z_of_byte_of_Z. f_equal. now apply u32le_value.
Qed.

(** A read of four bytes yields an unsigned 32-bit integer. *)
Lemma readUInt32LE_range b offset v :
  Buf.readUInt32LE b offset = Return v -> 0 <= v <= u32_max.
Proof.
  unfold Buf.readUInt32LE.
  destruct (skipn offset b) as [|b0 [|b1 [|b2 [|b3 rest]]]]; try discriminate.
  intros [= <-].
  pose proof (Z_of_byte_range b0). pose proof (Z_of_byte_range b1).
  pose proof (Z_of_byte_range b2). pose proof (Z_of_byte_range b3).
  unfold u32_max. lia.
Qed.

Lemma op_code_range operation : 0 <= op_code operation <= u32_max.
Proof. destruct operation; unfold u32_max; simpl; lia. Qed.

Lemma op_of_code_op_code operation : op_of_code (op_code operation) = Some operation.
Proof. now destruct operation. Qed.

(* ===================================================================== *)
(** ** The frame codec *)
(* ===================================================================== *)

(** The frame [send] builds: the two header fields, then the payload. *)
Lemma encode_frame operation payload :
  representable payload ->
  encode operation payload
  = Return (u32le (op_code operation)
            ++ u32le (Z.of_nat (List.length (payload_bytes payload)))
            ++ payload_bytes payload).
Proof.
  unfold representable, encode, Buf.writeUInt32LE. intros H.
  pose proof (op_code_range operation) as [H1 H2].
  destruct (Z.leb_spec 0 (op_code operation)); [|lia].
  destruct (Z.leb_spec (op_code operation) u32_max); [|lia].
  simpl.
  destruct (Z.leb_spec 0 (Z.of_nat (List.length (payload_bytes payload)))); [|lia].
  destruct (Z.leb_spec (Z.of_nat (List.length (payload_bytes payload))) u32_max); [|lia].
  simpl. now rewrite app_nil_r.
Qed.

(** A payload too long for the length field makes [send] raise. *)
Lemma encode_too_long operation payload :
  ~ representable payload -> encode operation payload = Throw RangeError.
Proof.
  unfold representable, encode, Buf.writeUInt32LE. intros H.
  pose proof (op_code_range operation) as [H1 H2].
  destruct (Z.leb_spec 0 (op_code operation)); [|lia].
  destruct (Z.leb_spec (op_code operation) u32_max); [|lia].
  simpl.
  destruct (Z.leb_spec (Z.of_nat (List.length (payload_bytes payload))) u32_max); [lia|].
  now rewrite andb_false_r.
Qed.

Lemma toString_from s : Buf.toString (Buf.from s) = s.
Proof. apply string_of_list_byte_of_string. Qed.

Lemma subarray_payload (header body : Buffer) :
  List.length header = 8%nat ->
  Buf.subarray (header ++ body) 8 (Z.to_nat (Z.of_nat (List.length body) + 8)) = body.
Proof.
  intros H. unfold Buf.subarray.
  replace (Z.to_nat (Z.of_nat (List.length body) + 8) - 8)%nat with (List.length body) by lia.
  rewrite <- H, skipn_app, skipn_all, Nat.sub_diag. simpl. apply firstn_all.
Qed.

(** What [decode] makes of a header followed by as many bytes as it
    declares. *)
Lemma decode_frame op body :
  0 <= op <= u32_max -> Z.of_nat (List.length body) <= u32_max ->
  decode (u32le op ++ u32le (Z.of_nat (List.length body)) ++ body)
  = Return match JSON.parse (Buf.toString body) with
           | Some parsedData => Frame op parsedData
           | None => Malformed
           end.
Proof.
  intros Hop Hlen. unfold decode.
  rewrite readUInt32LE_u32le by assumption.
  rewrite readUInt32LE_second by lia.
  change (u32le op ++ u32le (Z.of_nat (List.length body)) ++ body)
    with ((u32le op ++ u32le (Z.of_nat (List.length body))) ++ body).
  rewrite subarray_payload by reflexivity.
  rewrite !length_app. simpl List.length.
  destruct (Nat.ltb_spec (4 + 4 + List.length body) 8); [lia|].
  destruct (Z.eqb_spec (Z.of_nat (4 + 4 + List.length body)) (Z.of_nat (List.length body) + 8));
    [|lia].
  simpl. now destruct (JSON.parse (Buf.toString body)).
Qed.

(* ===================================================================== *)
(** ** States and sockets *)
(* ===================================================================== *)

Lemma sock_set_incoming_same s : sock_set_incoming (incoming s) s = s.
Proof. now destruct s. Qed.

Lemma with_log_nil st : with_log [] st = st.
Proof. destruct st. unfold with_log. simpl. now rewrite app_nil_r. Qed.

Lemma with_log_app l1 l2 st : with_log l2 (with_log l1 st) = with_log (l1 ++ l2) st.
Proof. unfold with_log. simpl. now rewrite app_assoc. Qed.

Lemma set_sockets_same st : set_sockets (sockets st) st = st.
Proof. now destruct st. Qed.

Lemma refill_with_log i chunks l st :
  refill i chunks (with_log l st) = with_log l (refill i chunks st).
Proof. reflexivity. Qed.

Lemma refill_refill i c1 c2 st : refill i c2 (refill i c1 st) = refill i c2 st.
Proof.
  unfold refill, set_sockets. simpl. f_equal.
  rewrite list_alter_alter_eq. apply list_alter_ext; [|reflexivity].
  intros s _. now destruct s.
Qed.

Lemma refill_same i s st :
  sockets st !! i = Some s -> refill i (incoming s) st = st.
Proof.
  intros H. unfold refill.
  replace (alter (sock_set_incoming (incoming s)) i (sockets st)) with (sockets st);
    [apply set_sockets_same|].
  symmetry. apply list_eq. intros j. destruct (decide (i = j)) as [<-|Hne].
  - rewrite list_lookup_alter_eq, H. simpl. now rewrite sock_set_incoming_same.
  - now rewrite list_lookup_alter_ne.
Qed.

(* ===================================================================== *)
(** ** The monad *)
(* ===================================================================== *)

Lemma bind_eq {A B} (m : M A) (k : A -> M B) st :
  (m ≫= k) st =
  match m st with
  | (Return a, st') => k a st'
  | (Throw e, st') => (Throw e, st')
  end.
Proof. reflexivity. Qed.

Lemma then_ret_tt (m : M unit) st : (m;; mret tt) st = m st.
Proof. rewrite bind_eq. destruct (m st) as [[[]|e] st']; reflexivity. Qed.

Lemma get_state_eq st : get_state st = (Return st, st).
Proof. reflexivity. Qed.

Lemma modify_eq f st : modify f st = (Return tt, f st).
Proof. reflexivity. Qed.

Lemma ret_eq {A} (a : A) st : (mret a : M A) st = (Return a, st).
Proof. reflexivity. Qed.

Lemma client_emit_eq event args st :
  client_emit event args st = (Return tt, with_log [Published OnClient event args] st).
Proof. reflexivity. Qed.

(* ===================================================================== *)
(** ** The read loop *)
(* ===================================================================== *)

Lemma isConnected_open i s st :
  socket st = Some i -> sockets st !! i = Some s -> readyState s = rs_open ->
  isConnected st = true.
Proof. intros Hr Ho Hs. unfold isConnected, the_socket. now rewrite Hr, Ho, Hs. Qed.

Lemma socket_read_eq i s st :
  socket st = Some i -> sockets st !! i = Some s ->
  socket_read st =
  match incoming s with
  | chunk :: rest => (Return (Some chunk), refill i rest st)
  | [] => (Return None, st)
  end.
Proof.
  intros Hr Ho. unfold socket_read, the_socket, refill, update_socket. rewrite Hr, Ho.
  now destruct (incoming s).
Qed.

(** The loop reads every chunk that waits, publishes each, and leaves by
    [read()] returning nothing: the fuel is not what stops it. *)
Lemma read_loop_drains chunks : forall fuel data i s st,
  socket st = Some i -> sockets st !! i = Some s -> readyState s = rs_open ->
  incoming s = chunks -> (List.length chunks < fuel)%nat ->
  read_loop fuel data st
  = (Return (data ++ List.concat chunks),
     with_log (map debug_chunk chunks) (refill i [] st)).
Proof.
  induction chunks as [|chunk rest IH]; intros fuel data i s st Hr Ho Hs Hi Hf;
    (destruct fuel as [|fuel]; [simpl in Hf; lia|]).
  - simpl read_loop. rewrite bind_eq. simpl.
    rewrite (isConnected_open i s st) by assumption. simpl.
    rewrite bind_eq, (socket_read_eq i s) by assumption. rewrite Hi. simpl.
    rewrite app_nil_r, with_log_nil. rewrite <- Hi. now rewrite (refill_same i s).
  - simpl read_loop. rewrite bind_eq. simpl.
    rewrite (isConnected_open i s st) by assumption. simpl.
    rewrite bind_eq, (socket_read_eq i s) by assumption. rewrite Hi.
    rewrite bind_eq, client_emit_eq.
    rewrite (IH fuel _ i (sock_set_incoming rest s)).
    + unfold Buf.concat. simpl. rewrite app_nil_r, <- app_assoc.
      rewrite refill_with_log, refill_refill, with_log_app. reflexivity.
    + exact Hr.
    + simpl. unfold refill. simpl. now rewrite list_lookup_alter_eq, Ho.
    + exact Hs.
    + reflexivity.
    + simpl in Hf. lia.
Qed.

Lemma pending_eq i s st :
  socket st = Some i -> sockets st !! i = Some s -> pending st = List.length (incoming s).
Proof. intros Hr Ho. unfold pending, the_socket. now rewrite Hr, Ho. Qed.

(** One read cycle on the bytes of [chunks], for a transport that is
    connected: the chunks are published, then the frame is judged. *)
Lemma read_cycle st i s chunks :
  Connected st i s ->
  socket_readable i chunks st =
  let st1 := with_log (map debug_chunk chunks) st in
  match decode (List.concat chunks) with
  | Throw e => (Throw e, st1)
  | Return NoData => (Return tt, st1)
  | Return Malformed => (Return tt, with_log [debug_malformed] st1)
  | Return (Frame op parsedData) =>
      dispatch op parsedData (with_log [debug_received op parsedData] st1)
  end.
Proof.
  intros [Hr Ho Hs Hi Hh]. unfold socket_readable. rewrite Ho, Hh.
  assert (E : set_sockets
                (alter (fun s0 => sock_set_incoming (incoming s0 ++ chunks) s0) i (sockets st)) st
              = refill i chunks st).
  { unfold refill. f_equal. apply list_alter_ext; [|reflexivity].
    intros x Hx. rewrite Ho in Hx. injection Hx as <-. now rewrite Hi. }
  rewrite E. simpl repeat_M. rewrite then_ret_tt.
  unfold readable_handler. rewrite bind_eq, get_state_eq.
  rewrite (pending_eq i (sock_set_incoming chunks s)); [|exact Hr|].
  2:{ unfold refill. simpl. now rewrite list_lookup_alter_eq, Ho. }
  rewrite bind_eq.
  rewrite (read_loop_drains chunks _ _ i (sock_set_incoming chunks s));
    [|exact Hr| |exact Hs|reflexivity|simpl; lia].
  2:{ unfold refill. simpl. now rewrite list_lookup_alter_eq, Ho. }
  rewrite refill_refill. rewrite <- Hi at 1. rewrite (refill_same i s) by assumption.
  simpl app. rewrite bind_eq. unfold lift.
  destruct (decode (List.concat chunks)) as [[ | | op parsedData]|e]; reflexivity.
Qed.

(* ===================================================================== *)
(** ** What [decode] accepts *)
(* ===================================================================== *)

Lemma readUInt32LE_in_range (data : Buffer) offset :
  (offset + 4 <= List.length data)%nat -> exists v, Buf.readUInt32LE data offset = Return v.
Proof.
  intros H. unfold Buf.readUInt32LE.
  pose proof (length_skipn offset data) as L.
  destruct (skipn offset data) as [|b0 [|b1 [|b2 [|b3 rest]]]]; simpl in L; try lia.
  now eexists.
Qed.

Lemma readUInt32LE_app (data tail : Buffer) offset v :
  Buf.readUInt32LE data offset = Return v -> Buf.readUInt32LE (data ++ tail) offset = Return v.
Proof.
  unfold Buf.readUInt32LE. intros H.
  assert (L : (offset <= List.length data)%nat).
  { destruct (Nat.le_gt_cases offset (List.length data)) as [|Hgt]; [assumption|].
    rewrite skipn_all2 in H by lia. discriminate. }
  rewrite skipn_app. replace (offset - List.length data)%nat with O by lia. simpl.
  destruct (skipn offset data) as [|b0 [|b1 [|b2 [|b3 rest]]]]; try discriminate.
  exact H.
Qed.

Lemma subarray_rest (data : Buffer) n :
  Z.of_nat (List.length data) = n + 8 ->
  Buf.subarray data 8 (Z.to_nat (n + 8)) = skipn 8 data.
Proof.
  intros H. unfold Buf.subarray. apply firstn_all2. rewrite length_skipn. lia.
Qed.

(** The three outcomes of [decode] on eight bytes or more. *)
Lemma decode_long data :
  (8 <= List.length data)%nat ->
  exists op n,
    Buf.readUInt32LE data 0 = Return op /\ Buf.readUInt32LE data 4 = Return n
    /\ decode data =
       Return (if negb (Z.of_nat (List.length data) =? n + 8) then Malformed
               else match JSON.parse (Buf.toString (skipn 8 data)) with
                    | Some parsedData => Frame op parsedData
                    | None => Malformed
                    end).
Proof.
  intros H.
  destruct (readUInt32LE_in_range data 0 ltac:(lia)) as (op & Hop).
  destruct (readUInt32LE_in_range data 4 ltac:(lia)) as (n & Hn).
  exists op, n. split; [exact Hop|]. split; [exact Hn|].
  unfold decode. destruct (Nat.ltb_spec (List.length data) 8); [lia|].
  rewrite Hop, Hn.
  destruct (Z.eqb_spec (Z.of_nat (List.length data)) (n + 8)) as [E|E]; simpl; [|reflexivity].
  rewrite subarray_rest by assumption.
  now destruct (JSON.parse (Buf.toString (skipn 8 data))).
Qed.

Lemma decode_short data :
  (List.length data < 8)%nat ->
  decode data = Return (if (List.length data =? 0)%nat then NoData else Malformed).
Proof.
  intros H. unfold decode. destruct (Nat.ltb_spec (List.length data) 8); [|lia].
  now destruct (List.length data =? 0)%nat.
Qed.

(** [decode] raises nothing: its reads are guarded by the length check. *)
Lemma decode_returns data : exists d, decode data = Return d.
Proof.
  destruct (Nat.lt_ge_cases (List.length data) 8) as [H|H].
  - rewrite decode_short by assumption. now eexists.
  - destruct (decode_long data H) as (op & n & _ & _ & ->). now eexists.
Qed.

(** A frame is what [decode] says it is: the fields and the length. *)
Lemma decode_Frame_inv data op parsedData :
  decode data = Return (Frame op parsedData) ->
  (8 <= List.length data)%nat /\ Buf.readUInt32LE data 0 = Return op
  /\ Buf.readUInt32LE data 4 = Return (Z.of_nat (List.length data) - 8)
  /\ JSON.parse (Buf.toString (skipn 8 data)) = Some parsedData.
Proof.
  intros H. destruct (Nat.lt_ge_cases (List.length data) 8) as [Hs|Hl].
  - rewrite decode_short in H by assumption.
    destruct (List.length data =? 0)%nat; discriminate.
  - destruct (decode_long data Hl) as (op' & n & Hop & Hn & E). rewrite E in H.
    destruct (Z.eqb_spec (Z.of_nat (List.length data)) (n + 8)) as [El|El];
      simpl in H; [|discriminate].
    destruct (JSON.parse (Buf.toString (skipn 8 data))) as [v|]; [|discriminate].
    injection H as -> ->. repeat split; try assumption.
    rewrite Hn. f_equal. lia.
Qed.

(** Bytes after a complete frame spoil it. *)
Lemma decode_trailing frame trailing op parsedData :
  decode frame = Return (Frame op parsedData) -> trailing <> [] ->
  decode (frame ++ trailing) = Return Malformed.
Proof.
  intros H Hne. apply decode_Frame_inv in H as (Hl & Hop & Hn & _).
  assert (Ht : (0 < List.length trailing)%nat) by (destruct trailing; [congruence | simpl; lia]).
  destruct (decode_long (frame ++ trailing)) as (op' & n & Hop' & Hn' & E).
  { rewrite length_app. lia. }
  rewrite (readUInt32LE_app _ trailing _ _ Hn) in Hn'. injection Hn' as <-.
  rewrite E, length_app.
  destruct (Z.eqb_spec (Z.of_nat (List.length frame + List.length trailing))
              (Z.of_nat (List.length frame) - 8 + 8)); [lia | reflexivity].
Qed.

(** The frame of a truthy payload decodes to that payload. *)
Lemma decode_encode operation v :
  truthy (Some v) = true -> representable (Some v) ->
  decode (u32le (op_code operation)
          ++ u32le (Z.of_nat (List.length (payload_bytes (Some v))))
          ++ payload_bytes (Some v))
  = Return (Frame (op_code operation) v).
Proof.
  intros Ht Hr. rewrite decode_frame; [|apply op_code_range|exact Hr].
  unfold payload_bytes. rewrite Ht, toString_from, parse_stringify. reflexivity.
Qed.


(* ===================================================================== *)
(** ** [send] and the emitters *)
(* ===================================================================== *)

Lemma update_socket_connected f i st :
  socket st = Some i -> update_socket f st = set_sockets (alter f i (sockets st)) st.
Proof. intros H. unfold update_socket. now rewrite H. Qed.

Lemma update_socket_none f st : socket st = None -> update_socket f st = st.
Proof. intros H. unfold update_socket. now rewrite H. Qed.

Lemma send_eq operation payload st :
  send operation payload st =
  match encode operation payload with
  | Return packet =>
      (Return tt, update_socket (sock_write packet) (with_log [debug_sent operation payload] st))
  | Throw e => (Throw e, with_log [debug_sent operation payload] st)
  end.
Proof.
  unfold send. rewrite bind_eq, client_emit_eq, bind_eq. unfold lift.
  now destruct (encode operation payload).
Qed.

(** [send] on a transport that holds socket [i]: the diagnostic, then the
    frame written to the socket. *)
Lemma send_connected operation payload i st :
  socket st = Some i -> representable payload ->
  send operation payload st
  = (Return tt,
     with_log [debug_sent operation payload]
       (written i (u32le (op_code operation)
                   ++ u32le (Z.of_nat (List.length (payload_bytes payload)))
                   ++ payload_bytes payload) st)).
Proof.
  intros Hs Hr. rewrite send_eq, encode_frame by assumption.
  now rewrite (update_socket_connected _ i) by exact Hs.
Qed.

(** [send] on a transport without a socket: the diagnostic, and nothing
    else. *)
Lemma send_disconnected operation payload st :
  socket st = None -> representable payload ->
  send operation payload st = (Return tt, with_log [debug_sent operation payload] st).
Proof.
  intros Hs Hr. rewrite send_eq, encode_frame by assumption.
  now rewrite update_socket_none by exact Hs.
Qed.

Lemma transport_emit_eq event args st :
  transport_emit event args st
  = run_listeners (heard st event) args
      (with_log [Published OnTransport (str event) args] st).
Proof. reflexivity. Qed.

Lemma set_socket_with_log r l st :
  set_socket r (with_log l st) = with_log l (set_socket r st).
Proof. reflexivity. Qed.


Lemma set_socket_twice r1 r2 st : set_socket r2 (set_socket r1 st) = set_socket r2 st.
Proof. reflexivity. Qed.

(** The close listeners of [connect]: each forgets the socket and passes
    the reason on to the client. *)
Lemma run_close_listeners n args st :
  run_listeners (repeat TransportOnClose (S n)) args st
  = (Return tt,
     with_log (repeat (Published OnClient (str "close") [first_arg args]) (S n))
       (set_socket None st)).
Proof.
  revert st. induction n as [|n IH]; intros st.
  - reflexivity.
  - change (repeat TransportOnClose (S (S n)))
      with (TransportOnClose :: repeat TransportOnClose (S n)).
    change (run_listeners (TransportOnClose :: ?l) args)
      with (run_listener TransportOnClose args;; run_listeners l args).
    rewrite bind_eq. simpl run_listener. rewrite bind_eq, modify_eq, client_emit_eq, IH.
    rewrite set_socket_with_log, set_socket_twice, with_log_app. reflexivity.
Qed.

(* ===================================================================== *)
(** ** [close] *)
(* ===================================================================== *)

Lemma close_connected i st :
  socket st = Some i -> close st = (Return Waiting, closing i st).
Proof.
  intros H. unfold close. rewrite bind_eq, get_state_eq, H.
  rewrite bind_eq, modify_eq, (update_socket_connected _ i) by exact H.
  rewrite bind_eq, modify_eq, (update_socket_connected _ i) by exact H.
  unfold closing, set_sockets. simpl. now rewrite list_alter_alter_eq.
Qed.

Lemma close_disconnected st : socket st = None -> close st = (Return Resolved, st).
Proof. intros H. unfold close. now rewrite bind_eq, get_state_eq, H. Qed.

Lemma on_socket_close_eq n st :
  heard st "close" = repeat TransportOnClose n ->
  on_socket_close st
  = (Return Resolved,
     with_log (Published OnTransport (str "close") [Some closed_by_client]
               :: repeat (Published OnClient (str "close") [Some closed_by_client]) n)
       (set_socket None st)).
Proof.
  intros H. unfold on_socket_close. rewrite bind_eq, transport_emit_eq.
  change (heard (with_log ?l st) "close") with (heard st "close"). rewrite H.
  destruct n as [|n].
  - reflexivity.
  - rewrite run_close_listeners. rewrite bind_eq, modify_eq.
    rewrite !set_socket_with_log, set_socket_twice, with_log_app. reflexivity.
Qed.

(* ===================================================================== *)
(** ** The socket locator *)
(* ===================================================================== *)

Lemma first_usable_app w a b :
  first_usable w (a ++ b)
  = match first_usable w a with
    | Some p => Some p
    | None => first_usable w b
    end.
Proof.
  induction a as [|c a IH]; [reflexivity|]. simpl. now destruct (usable w c).
Qed.



Lemma createSocket_eq w path st :
  createSocket w path st
  = if accepts w path then (Return (Some (List.length (sockets st))), opened path st)
    else (Return None, st).
Proof. reflexivity. Qed.

Lemma handleSocketId_eq w pat id st :
  formats w pat ->
  handleSocketId w pat id st
  = match usable w (pat, id) with
    | Some p => (Return (Some (List.length (sockets st))), opened p st)
    | None => (Return None, st)
    end.
Proof.
  intros Hf. unfold handleSocketId, usable. simpl fst. simpl snd.
  destruct (includes (rule_platform pat) (platform (process w))) eqn:Hi; [|reflexivity].
  destruct (Hf Hi id) as (p & Hp). change (negb true) with false. cbv iota. rewrite bind_eq. unfold lift. rewrite Hp.
  destruct (String.eqb (platform (process w)) "win32"); simpl.
  - rewrite createSocket_eq. now destruct (accepts w p).
  - destruct (existsSync w (Path.dirname p)); simpl; [|reflexivity].
    rewrite createSocket_eq. now destruct (accepts w p).
Qed.

Lemma try_ids_eq w pat ids st :
  formats w pat ->
  try_ids w pat ids st
  = match first_usable w (map (fun id => (pat, id)) ids) with
    | Some p => (Return (Some (List.length (sockets st))), opened p st)
    | None => (Return None, st)
    end.
Proof.
  intros Hf. induction ids as [|id ids IH]; [reflexivity|].
  simpl try_ids. rewrite bind_eq, handleSocketId_eq by assumption. simpl.
  destruct (usable w (pat, id)); [reflexivity | exact IH].
Qed.

Lemma try_rules_cons w pat rest :
  try_rules w (pat :: rest)
  = (try_ids w pat socket_ids
     ≫= fun r => match r with
                 | Some s => mret (Some s)
                 | None => try_rules w rest
                 end).
Proof. reflexivity. Qed.

Lemma try_rules_eq w pats st :
  Forall (formats w) pats ->
  try_rules w pats st
  = match first_usable w (flat_map (fun pat => map (fun id => (pat, id)) socket_ids) pats) with
    | Some p => (Return (Some (List.length (sockets st))), opened p st)
    | None => (Return None, st)
    end.
Proof.
  induction 1 as [|pat pats Hf HF IH]; [reflexivity|].
  rewrite try_rules_cons, bind_eq, try_ids_eq by assumption.
  cbn [flat_map]. rewrite first_usable_app.
  destruct (first_usable w (map (fun id => (pat, id)) socket_ids)); [reflexivity | exact IH].
Qed.

Lemma includes_unix_rule w l :
  l = ["darwin"; "linux"] \/ l = ["linux"] ->
  includes l (platform (process w)) = true ->
  includes ["darwin"; "linux"] (platform (process w)) = true.
Proof.
  intros [-> | ->]; [trivial|]. unfold includes. simpl. intros H.
  apply orb_true_iff in H as [H|H]; [|discriminate]. rewrite H. apply orb_true_r.
Qed.

Lemma prefix_resolvable w :
  resolvable w = true ->
  includes ["darwin"; "linux"] (platform (process w)) = true ->
  exists p, prefix w = Return p.
Proof.
  unfold resolvable, prefix. intros H Hi. rewrite Hi in H. simpl in H.
  destruct (realpathSync w (runtime_dir (env (process w)))); [now eexists | discriminate].
Qed.

Lemma pathList_formats w : resolvable w = true -> Forall (formats w) pathList.
Proof.
  intros H. unfold pathList.
  repeat constructor; intros Hi id; simpl in *.
  - now eexists.
  - destruct (prefix_resolvable w H (includes_unix_rule w _ (or_introl eq_refl) Hi)) as (p & ->).
    now eexists.
  - destruct (prefix_resolvable w H (includes_unix_rule w _ (or_intror eq_refl) Hi)) as (p & ->).
    now eexists.
  - destruct (prefix_resolvable w H (includes_unix_rule w _ (or_intror eq_refl) Hi)) as (p & ->).
    now eexists.
Qed.

(** [getSocket] without a socket at hand: the first usable candidate, or
    the error. *)
Lemma getSocket_locate w st :
  socket st = None -> resolvable w = true ->
  getSocket w st
  = match locate w with
    | Some p => (Return (List.length (sockets st)), opened p st)
    | None => (Throw (Error "Could not connect"), st)
    end.
Proof.
  intros Hs Hr. unfold getSocket. rewrite bind_eq, get_state_eq, Hs.
  rewrite bind_eq, try_rules_eq by now apply pathList_formats.
  fold candidates. fold (locate w). now destruct (locate w).
Qed.

Lemma getSocket_existing w i st : socket st = Some i -> getSocket w st = (Return i, st).
Proof. intros Hs. unfold getSocket. now rewrite bind_eq, get_state_eq, Hs. Qed.

(** Where the runtime directory does not resolve, [getSocket] fails with
    the error of the file system, at the first Unix candidate. *)
Lemma getSocket_unresolvable w st :
  socket st = None -> resolvable w = false ->
  getSocket w st = (Throw (ENOENT (runtime_dir (env (process w)))), st).
Proof.
  unfold resolvable. intros Hs Hr. apply orb_false_iff in Hr as [Hi Hp].
  apply negb_false_iff in Hi.
  assert (Hplat : platform (process w) = "darwin" \/ platform (process w) = "linux").
  { unfold includes in Hi. simpl in Hi. rewrite orb_false_r in Hi.
    apply orb_true_iff in Hi as [Hi|Hi]; apply String.eqb_eq in Hi; auto. }
  assert (Hx : prefix w = Throw (ENOENT (runtime_dir (env (process w))))).
  { unfold prefix. now destruct (realpathSync w (runtime_dir (env (process w)))). }
  unfold getSocket. rewrite bind_eq, get_state_eq, Hs.
  destruct Hplat as [E | E];
    unfold try_rules, pathList, try_ids, socket_ids, handleSocketId, includes, format, rule_platform;
    rewrite E; simpl; rewrite !bind_eq; unfold lift; rewrite Hx; reflexivity.
Qed.

(* ===================================================================== *)
(** ** [connect] *)
(* ===================================================================== *)

Lemma get_on_eq {L} event (callback : L) ls :
  EventEmitter.get event (EventEmitter.on event callback ls)
  = EventEmitter.get event ls ++ [callback].
Proof.
  unfold EventEmitter.get, EventEmitter.on.
  destruct (ls !! event) as [l|] eqn:E; now rewrite lookup_insert_eq.
Qed.

Lemma get_on_ne {L} event event' (callback : L) ls :
  event <> event' ->
  EventEmitter.get event' (EventEmitter.on event callback ls) = EventEmitter.get event' ls.
Proof.
  intros H. unfold EventEmitter.get, EventEmitter.on.
  destruct (ls !! event) as [l|] eqn:E; now rewrite lookup_insert_ne.
Qed.

Lemma wired_new_Client id : wired (new_Client id) 0.
Proof. repeat split. Qed.

(** [connect] on a transport without a socket, in a world where a candidate
    is usable: the socket is opened and kept, the handshake is written,
    the read handler and one more close listener are attached. *)
Lemma connect_fresh w st n p :
  socket st = None -> wired st n -> resolvable w = true -> locate w = Some p ->
  representable (Some (handshake (clientId st))) ->
  exists st' s,
    connect w st = (Return tt, st')
    /\ Connected st' (List.length (sockets st)) s
    /\ wired st' (S n)
    /\ clientId st' = clientId st
    /\ sock_path s = p /\ once_close s = O
    /\ outgoing s = [u32le 0
                     ++ u32le (Z.of_nat (List.length (payload_bytes (Some (handshake (clientId st))))))
                     ++ payload_bytes (Some (handshake (clientId st)))]
    /\ log st' = log st ++ [Published OnTransport (str "open") [];
                            debug_sent HANDSHAKE (Some (handshake (clientId st)))].
Proof.
  intros Hs (Hm & Hc & Ho & Hp) Hr Hl Hrep.
  set (i := List.length (sockets st)).
  set (frame := u32le 0
                ++ u32le (Z.of_nat (List.length (payload_bytes (Some (handshake (clientId st))))))
                ++ payload_bytes (Some (handshake (clientId st)))).
  set (s := sock_on_readable (sock_write frame (new_socket p))).
  set (st' := {| clientId := clientId st; sockets := sockets st ++ [s]; socket := Some i;
                 listeners := EventEmitter.on "close" TransportOnClose (listeners st);
                 log := log st ++ [Published OnTransport (str "open") [];
                                   debug_sent HANDSHAKE (Some (handshake (clientId st)))] |}).
  exists st', s.
  assert (Hlook : (sockets st ++ [s]) !! i = Some s).
  { subst i. rewrite lookup_app_r by lia. now rewrite Nat.sub_diag. }
  split; [|split; [|split; [|repeat split; reflexivity]]].
  - unfold connect. rewrite bind_eq, get_state_eq, Hs.
    rewrite bind_eq, bind_eq, getSocket_locate, Hl by assumption.
    rewrite modify_eq, bind_eq, transport_emit_eq.
    change (heard (set_socket ?r (opened p st)) "open") with (heard st "open"). rewrite Ho.
    simpl run_listeners. rewrite ret_eq, bind_eq, get_state_eq, bind_eq.
    rewrite (send_connected _ _ i) by (try reflexivity; exact Hrep).
    rewrite bind_eq, get_state_eq. simpl socket.
    rewrite bind_eq, modify_eq. unfold transport_on. rewrite modify_eq.
    unfold st'. unfold update_socket, written, set_listeners, set_sockets, with_log, opened.
    simpl. f_equal. f_equal.
    + fold i. rewrite list_alter_alter_eq. rewrite alter_app_r_alt by (subst i; lia).
      subst i. rewrite Nat.sub_diag. reflexivity.
    + now rewrite <- app_assoc.
  - constructor; try reflexivity. exact Hlook.
  - repeat split.
    + change (heard st' "message")
        with (EventEmitter.get "message" (EventEmitter.on "close" TransportOnClose (listeners st))).
      now rewrite get_on_ne.
    + change (heard st' "close")
      with (EventEmitter.get "close" (EventEmitter.on "close" TransportOnClose (listeners st))).
      rewrite get_on_eq. fold (heard st "close"). rewrite Hc. symmetry. apply repeat_cons.
    + change (heard st' "open")
        with (EventEmitter.get "open" (EventEmitter.on "close" TransportOnClose (listeners st))).
      now rewrite get_on_ne.
    + change (heard st' "ping")
        with (EventEmitter.get "ping" (EventEmitter.on "close" TransportOnClose (listeners st))).
      now rewrite get_on_ne.
Qed.

(* ===================================================================== *)
(** ** The listeners of a reachable client *)
(* ===================================================================== *)

Lemma stable_refl st : stable st st.
Proof. split; [reflexivity | trivial]. Qed.

Lemma stable_trans st1 st2 st3 : stable st1 st2 -> stable st2 st3 -> stable st1 st3.
Proof. intros [L1 H1] [L2 H2]. split; [congruence | auto]. Qed.

Lemma quiet_ret {A} (a : A) : quiet (mret a : M A).
Proof. intros st. apply stable_refl. Qed.

Lemma quiet_throw {A} e : quiet (throw e : M A).
Proof. intros st. apply stable_refl. Qed.

Lemma quiet_lift {A} (o : Outcome A) : quiet (lift o).
Proof. intros st. apply stable_refl. Qed.

Lemma quiet_get_state : quiet get_state.
Proof. intros st. apply stable_refl. Qed.

Lemma quiet_bind {A B} (m : M A) (k : A -> M B) :
  quiet m -> (forall a, quiet (k a)) -> quiet (m ≫= k).
Proof.
  intros Hm Hk st. unfold after. rewrite bind_eq.
  specialize (Hm st). unfold after in Hm.
  destruct (m st) as [[a|e] st1]; simpl in *; [|exact Hm].
  eapply stable_trans; [exact Hm | apply Hk].
Qed.

Lemma quiet_modify f : (forall st, stable st (f st)) -> quiet (modify f).
Proof. intros H st. apply H. Qed.

Lemma stable_add_log p st : stable st (add_log p st).
Proof. split; [reflexivity | trivial]. Qed.

Lemma stable_set_socket r st : stable st (set_socket r st).
Proof. split; [reflexivity | trivial]. Qed.

Lemma stable_alter f i st :
  (forall s, on_readable (f s) = on_readable s) ->
  stable st (set_sockets (alter f i (sockets st)) st).
Proof.
  intros Hf. split; [reflexivity|]. intros n H. unfold handlers_within in *. simpl.
  apply Forall_alter; [exact H|]. intros s _ Hs. now rewrite Hf.
Qed.

Lemma stable_update_socket f st :
  (forall s, on_readable (f s) = on_readable s) -> stable st (update_socket f st).
Proof.
  intros Hf. unfold update_socket. destruct (socket st); [now apply stable_alter | apply stable_refl].
Qed.

Lemma stable_opened p st : stable st (opened p st).
Proof.
  split; [reflexivity|]. intros n H. unfold handlers_within, opened in *. simpl.
  apply Forall_app. split; [exact H|]. repeat constructor. simpl. lia.
Qed.

Lemma quiet_client_emit event args : quiet (client_emit event args).
Proof. apply quiet_modify. intros st. apply stable_add_log. Qed.

Lemma quiet_send operation payload : quiet (send operation payload).
Proof.
  unfold send. apply quiet_bind; [apply quiet_client_emit|]. intros _.
  apply quiet_bind; [apply quiet_lift|]. intros packet.
  apply quiet_modify. intros st. now apply stable_update_socket.
Qed.

Lemma quiet_run_listener l args : quiet (run_listener l args).
Proof.
  destruct l; simpl.
  - apply quiet_bind; [apply quiet_lift|]. intros cmd.
    apply quiet_bind.
    + destruct (is_string cmd "DISPATCH"); [|apply quiet_ret].
      apply quiet_bind; [apply quiet_lift|]. intros evt. apply quiet_ret.
    + intros [|]; [apply quiet_client_emit|].
      apply quiet_bind; [apply quiet_lift|]. intros evt.
      apply quiet_bind; [apply quiet_lift|]. intros data. apply quiet_client_emit.
  - apply quiet_bind; [|intros _; apply quiet_client_emit].
    apply quiet_modify. intros st. apply stable_set_socket.
Qed.

Lemma quiet_run_listeners ls args : quiet (run_listeners ls args).
Proof.
  induction ls as [|l ls IH]; [apply quiet_ret|].
  simpl. apply quiet_bind; [apply quiet_run_listener | intros _; exact IH].
Qed.

Lemma quiet_transport_emit event args : quiet (transport_emit event args).
Proof.
  unfold transport_emit.
  apply quiet_bind; [apply quiet_modify; intros st; apply stable_add_log|]. intros _.
  apply quiet_bind; [apply quiet_get_state|]. intros st. apply quiet_run_listeners.
Qed.

Lemma quiet_socket_read : quiet socket_read.
Proof.
  intros st. unfold after, socket_read. destruct (the_socket st) as [s|]; [|apply stable_refl].
  destruct (incoming s); [apply stable_refl|]. simpl. now apply stable_update_socket.
Qed.

Lemma quiet_read_loop fuel data : quiet (read_loop fuel data).
Proof.
  revert data. induction fuel as [|fuel IH]; intros data; [apply quiet_ret|].
  simpl. apply quiet_bind; [apply quiet_get_state|]. intros st.
  destruct (negb (isConnected st)); [apply quiet_ret|].
  apply quiet_bind; [apply quiet_socket_read|]. intros [chunk|]; [|apply quiet_ret].
  apply quiet_bind; [apply quiet_client_emit | intros _; apply IH].
Qed.

Lemma quiet_dispatch op parsedData : quiet (dispatch op parsedData).
Proof.
  unfold dispatch. destruct (op_of_code op) as [[]|]; try apply quiet_ret;
    try apply quiet_transport_emit.
  apply quiet_bind; [apply quiet_send | intros _; apply quiet_transport_emit].
Qed.

Lemma quiet_readable_handler : quiet readable_handler.
Proof.
  unfold readable_handler. apply quiet_bind; [apply quiet_get_state|]. intros st.
  apply quiet_bind; [apply quiet_read_loop|]. intros data.
  apply quiet_bind; [apply quiet_lift|]. intros [ | | op parsedData].
  - apply quiet_ret.
  - apply quiet_client_emit.
  - apply quiet_bind; [apply quiet_client_emit | intros _; apply quiet_dispatch].
Qed.

Lemma quiet_repeat_M n m : quiet m -> quiet (repeat_M n m).
Proof.
  intros H. induction n as [|n IH]; [apply quiet_ret|].
  simpl. apply quiet_bind; [exact H | intros _; exact IH].
Qed.

Lemma quiet_socket_readable i chunks : quiet (socket_readable i chunks).
Proof.
  intros st. unfold after, socket_readable.
  destruct (sockets st !! i) as [s|]; [|apply stable_refl].
  eapply stable_trans;
    [apply (stable_alter (fun s0 => sock_set_incoming (incoming s0 ++ chunks) s0) i); reflexivity|].
  apply (quiet_repeat_M (on_readable s) readable_handler quiet_readable_handler).
Qed.

Lemma quiet_close : quiet close.
Proof.
  unfold close. apply quiet_bind; [apply quiet_get_state|]. intros st.
  destruct (socket st); [|apply quiet_ret].
  apply quiet_bind; [apply quiet_modify; intros st'; now apply stable_update_socket|]. intros _.
  apply quiet_bind; [apply quiet_modify; intros st'; now apply stable_update_socket|]. intros _.
  apply quiet_ret.
Qed.

Lemma quiet_on_socket_close : quiet on_socket_close.
Proof.
  unfold on_socket_close. apply quiet_bind; [apply quiet_transport_emit|]. intros _.
  apply quiet_bind; [apply quiet_modify; intros st; apply stable_set_socket|]. intros _.
  apply quiet_ret.
Qed.

Lemma quiet_socket_closed i : quiet (socket_closed i).
Proof.
  intros st. unfold after, socket_closed.
  destruct (sockets st !! i) as [s|]; [|apply stable_refl].
  eapply stable_trans; [apply (stable_alter sock_closed i); reflexivity|].
  apply (quiet_repeat_M (once_close s) (on_socket_close;; mret tt)).
  apply quiet_bind; [apply quiet_on_socket_close|]. intros _. apply quiet_ret.
Qed.

Lemma quiet_createSocket w path : quiet (createSocket w path).
Proof.
  intros st. unfold after, createSocket. destruct (accepts w path); [apply stable_opened | apply stable_refl].
Qed.

Lemma quiet_handleSocketId w pat id : quiet (handleSocketId w pat id).
Proof.
  unfold handleSocketId. destruct (negb _); [apply quiet_ret|].
  apply quiet_bind; [apply quiet_lift|]. intros socketPath.
  destruct (_ && _); [apply quiet_ret | apply quiet_createSocket].
Qed.

Lemma quiet_try_ids w pat ids : quiet (try_ids w pat ids).
Proof.
  induction ids as [|id ids IH]; [apply quiet_ret|].
  simpl. apply quiet_bind; [apply quiet_handleSocketId|]. intros [s|]; [apply quiet_ret | exact IH].
Qed.

Lemma quiet_try_rules w pats : quiet (try_rules w pats).
Proof.
  induction pats as [|pat pats IH]; [apply quiet_ret|].
  rewrite try_rules_cons. apply quiet_bind; [apply quiet_try_ids|].
  intros [s|]; [apply quiet_ret | exact IH].
Qed.

Lemma quiet_getSocket w : quiet (getSocket w).
Proof.
  unfold getSocket. apply quiet_bind; [apply quiet_get_state|]. intros st.
  destruct (socket st); [apply quiet_ret|].
  apply quiet_bind; [apply quiet_try_rules|]. intros [s|]; [apply quiet_ret | apply quiet_throw].
Qed.

Lemma quiet_setActivity w nonce activity pid : quiet (setActivity w nonce activity pid).
Proof. apply quiet_send. Qed.

Lemma quiet_clearActivity w nonce pid : quiet (clearActivity w nonce pid).
Proof. apply quiet_send. Qed.

Lemma wired_listeners st st' n : listeners st' = listeners st -> wired st n -> wired st' n.
Proof. unfold wired, heard. now intros ->. Qed.

Lemma stable_invariant st st' : stable st st' -> invariant st -> invariant st'.
Proof.
  intros [Hl Hh] (n & Hw & Hn). exists n. split; [now apply (wired_listeners st) | now apply Hh].
Qed.

Lemma quiet_keeps {A} (m : M A) : quiet m -> keeps m.
Proof. intros H st. apply stable_invariant, H. Qed.

Lemma keeps_bind {A B} (m : M A) (k : A -> M B) :
  keeps m -> (forall a, keeps (k a)) -> keeps (m ≫= k).
Proof.
  intros Hm Hk st Hst. unfold after. rewrite bind_eq.
  specialize (Hm st Hst). unfold after in Hm.
  destruct (m st) as [[a|e] st1]; simpl in *; [now apply Hk | exact Hm].
Qed.

Lemma wired_on_close st n :
  wired st n ->
  wired (set_listeners (EventEmitter.on "close" TransportOnClose (listeners st)) st) (S n).
Proof.
  intros (Hm & Hc & Ho & Hp). unfold wired, heard in *. simpl.
  rewrite get_on_eq, !get_on_ne by discriminate. rewrite Hc.
  repeat split; try assumption. symmetry. apply repeat_cons.
Qed.

(** The end of [connect]: one more read handler on the socket, then one
    more close listener. *)
Lemma keeps_attach :
  keeps (st ← get_state;
         match socket st with
         | Some _ => modify (update_socket sock_on_readable)
         | None => throw TypeError
         end;;
         transport_on "close" TransportOnClose).
Proof.
  intros st (n & Hw & Hn). unfold after. rewrite bind_eq, get_state_eq.
  destruct (socket st) as [i|] eqn:Hs.
  - rewrite bind_eq, modify_eq. unfold transport_on. rewrite modify_eq. simpl.
    exists (S n). split.
    + apply (wired_listeners (set_listeners (EventEmitter.on "close" TransportOnClose (listeners st)) st));
        [|now apply wired_on_close].
      unfold update_socket. now rewrite Hs.
    + unfold handlers_within, update_socket in *. rewrite Hs. simpl.
      rewrite Forall_lookup in *. intros j s' Hj.
      destruct (decide (i = j)) as [<-|Hne].
      * rewrite list_lookup_alter_eq in Hj.
        destruct (sockets st !! i) as [s|] eqn:Hi; [|discriminate].
        injection Hj as <-. specialize (Hn i s Hi). simpl. lia.
      * rewrite list_lookup_alter_ne in Hj by assumption. specialize (Hn j s' Hj). lia.
  - rewrite bind_eq. simpl. exists n. now split.
Qed.

Lemma keeps_connect w : keeps (connect w).
Proof.
  unfold connect. apply keeps_bind; [apply quiet_keeps, quiet_get_state|]. intros st0.
  apply keeps_bind.
  - apply quiet_keeps. destruct (socket st0); [apply quiet_ret|].
    apply quiet_bind; [apply quiet_getSocket|]. intros s.
    apply quiet_modify. intros st'. apply stable_set_socket.
  - intros _. apply keeps_bind; [apply quiet_keeps, quiet_transport_emit|]. intros _.
    apply keeps_bind; [apply quiet_keeps, quiet_get_state|]. intros st.
    apply keeps_bind; [apply quiet_keeps, quiet_send|]. intros _.
    apply keeps_attach.
Qed.

Lemma invariant_new_Client id : invariant (new_Client id).
Proof. exists O. split; [apply wired_new_Client | constructor]. Qed.

(** Every state of a client has the listeners of its calls of [connect]. *)
Lemma reachable_invariant id st : reachable id st -> invariant st.
Proof.
  induction 1 as [|st c Hr IH]; [apply invariant_new_Client|].
  destruct c as [w | w nonce activity p | w nonce p | | i chunks | i]; simpl.
  - now apply keeps_connect.
  - now apply (quiet_keeps _ (quiet_setActivity w nonce activity p)).
  - now apply (quiet_keeps _ (quiet_clearActivity w nonce p)).
  - now apply (quiet_keeps _ quiet_close).
  - now apply (quiet_keeps _ (quiet_socket_readable i chunks)).
  - now apply (quiet_keeps _ (quiet_socket_closed i)).
Qed.

(** On a reachable client with a connection nothing listens to [ping] or
    [open], and the close listeners are those of at least one [connect]. *)
Lemma reachable_connected id st i s :
  reachable id st -> Connected st i s ->
  heard st "ping" = [] /\ heard st "open" = [] /\ exists n, wired st (S n).
Proof.
  intros Hr Hc. destruct (reachable_invariant id st Hr) as (n & Hw & Hn).
  pose proof Hw as (_ & _ & Ho & Hp). repeat split; try assumption.
  destruct n as [|n]; [|now exists n].
  unfold handlers_within in Hn. rewrite List.Forall_forall in Hn.
  destruct Hc as [_ Hlook _ _ Hh].
  assert (Hin : In s (sockets st)).
  { apply list_elem_of_In. eapply list_elem_of_lookup_2. exact Hlook. }
  specialize (Hn s Hin). lia.
Qed.


(* ===================================================================== *)
(** ** The claims *)
(* ===================================================================== *)

Ltac by_computation := vm_compute; first [reflexivity | discriminate | intro; discriminate].




(** C2, as amended.  A frame without payload is the 8-byte header with the
    length 0; [decode] refuses exactly those bytes as malformed, the empty
    text not being JSON, and a read cycle on them publishes the
    malformed-packet diagnostic and no frame. *)
Theorem empty_payload_frame (operation : IPC_OPERATION) :
  exists bytes,
    encode operation None = Return bytes
    /\ bytes = u32le (op_code operation) ++ u32le 0
    /\ List.length bytes = 8%nat
    /\ Buf.readUInt32LE bytes 0 = Return (op_code operation)
    /\ Buf.readUInt32LE bytes 4 = Return 0
    /\ decode bytes = Return Malformed
    /\ forall st i s,
         Connected st i s ->
         socket_readable i [bytes] st
         = (Return tt, with_log [debug_chunk bytes; debug_malformed] st).
Proof.
  exists (u32le (op_code operation) ++ u32le 0).
  assert (Hd : decode (u32le (op_code operation) ++ u32le 0) = Return Malformed)
    by now destruct operation.
  split; [now destruct operation|]. split; [reflexivity|]. split; [reflexivity|].
  split; [now destruct operation|]. split; [reflexivity|]. split; [exact Hd|].
  intros st i s Hc. rewrite (read_cycle st i s) by assumption.
  cbn [List.concat]. rewrite app_nil_r, Hd. cbv zeta. now rewrite with_log_app.
Qed.

(** A PING without payload, as [ping] would frame it without its UUID, fed
    to the read loop. *)
Lemma empty_payload_frame_witness :
  let bytes := [x03; x00; x00; x00; x00; x00; x00; x00] in
  socket_readable 0 [bytes] demo_state
  = (Return tt, with_log [debug_chunk bytes; debug_malformed] demo_state).
Proof.
  destruct (empty_payload_frame PING) as (bytes & _ & Hb & _ & _ & _ & _ & Hcycle).
  rewrite Hb in Hcycle. apply (Hcycle demo_state 0%nat demo_socket).
  constructor; reflexivity.
Defined.

(** C2 as stated fails: the eight bytes of a PING without payload do not
    decode to a frame. *)
Lemma empty_payload_counterexample :
  encode PING None = Return [x03; x00; x00; x00; x00; x00; x00; x00]
  /\ JSON.parse (Buf.toString []) = None
  /\ decode [x03; x00; x00; x00; x00; x00; x00; x00] = Return Malformed.
Proof. repeat split. Qed.






(** C5.  A CLOSE frame received and a local [close()] followed by the
    socket's close event both leave the transport without a socket, after
    exactly one close event on the transport, with the reason; every close
    listener of [connect] passes it on to the client, once when [connect]
    ran once.  [close()] without a socket resolves at once and changes
    nothing.  The listeners assumed are those of every reachable client
    with a connection. *)
Theorem close_converges :
  (forall st i s n chunks (reason : json),
     Connected st i s -> wired st (S n) ->
     decode (List.concat chunks) = Return (Frame (op_code CLOSE) reason) ->
     socket_readable i chunks st
     = (Return tt,
        with_log (map debug_chunk chunks
                  ++ [debug_received (op_code CLOSE) reason;
                      Published OnTransport (str "close") [Some reason]]
                  ++ repeat (Published OnClient (str "close") [Some reason]) (S n))
          (set_socket None st)))
  /\ (forall st i s n,
        socket st = Some i -> sockets st !! i = Some s -> once_close s = O -> wired st n ->
        close st = (Return Waiting, closing i st)
        /\ socket_closed i (closing i st)
           = (Return tt,
              with_log (Published OnTransport (str "close") [Some closed_by_client]
                        :: repeat (Published OnClient (str "close") [Some closed_by_client]) n)
                (set_socket None (shut i (closing i st)))))
  /\ (forall st, socket st = None -> close st = (Return Resolved, st))
  /\ (forall id st i s, reachable id st -> Connected st i s -> exists n, wired st (S n)).
Proof.
  split; [|split; [|split]].
  - intros st i s n chunks reason Hc (_ & Hcl & _ & _) Hd.
    rewrite (read_cycle st i s) by assumption. rewrite Hd. cbv zeta.
    unfold dispatch. rewrite op_of_code_op_code, transport_emit_eq.
    change (heard (with_log ?l2 (with_log ?l1 st)) "close") with (heard st "close").
    rewrite Hcl, run_close_listeners.
    rewrite !set_socket_with_log, !with_log_app. reflexivity.
  - intros st i s n Hs Ho Honce (_ & Hcl & _ & _). split; [now apply close_connected|].
    unfold socket_closed.
    assert (Hl : sockets (closing i st) !! i = Some (sock_end (sock_once_close s))).
    { unfold closing. simpl. now rewrite list_lookup_alter_eq, Ho. }
    rewrite Hl. simpl once_close. rewrite Honce. simpl repeat_M.
    rewrite then_ret_tt, bind_eq.
    fold (shut i (closing i st)).
    rewrite (on_socket_close_eq n) by exact Hcl.
    reflexivity.
  - intros st Hs. now apply close_disconnected.
  - intros id st i s Hr Hc. now destruct (reachable_connected id st i s Hr Hc) as (_ & _ & H).
Qed.

(** After one [connect]: a CLOSE frame with a reason, and a local
    [close()] followed by the close event of the socket. *)
Lemma close_converges_witness :
  let frame := [x02; x00; x00; x00; x0a; x00; x00; x00;
                x7b; x22; x63; x6f; x64; x65; x22; x3a; x31; x7d] in
  let reason := JObject [("code", JNumber 1)] in
  socket_readable 0 [frame] demo_state
  = (Return tt,
     with_log [debug_chunk frame; debug_received 2 reason;
               Published OnTransport (str "close") [Some reason];
               Published OnClient (str "close") [Some reason]]
       (set_socket None demo_state))
  /\ close demo_state = (Return Waiting, closing 0 demo_state)
  /\ socket_closed 0 (closing 0 demo_state)
     = (Return tt,
        with_log [Published OnTransport (str "close") [Some closed_by_client];
                  Published OnClient (str "close") [Some closed_by_client]]
          (set_socket None (shut 0 (closing 0 demo_state)))).
Proof.
  split.
  - refine (proj1 close_converges demo_state 0%nat demo_socket 0%nat
              [[x02; x00; x00; x00; x0a; x00; x00; x00;
                x7b; x22; x63; x6f; x64; x65; x22; x3a; x31; x7d]]
              (JObject [("code", JNumber 1)]) _ _ _).
    + constructor; reflexivity.
    + repeat split.
    + reflexivity.
  - refine (proj1 (proj2 close_converges) demo_state 0%nat demo_socket 1%nat _ _ _ _).
    + reflexivity.
    + reflexivity.
    + reflexivity.
    + repeat split.
Defined.




(** C7.  [send] on a transport without a socket writes nothing, raises
    nothing and keeps nothing for later: it returns, and all it leaves is
    its diagnostic to the client. *)
Theorem send_without_connection st (operation : IPC_OPERATION) (payload : any) :
  socket st = None -> representable payload ->
  send operation payload st = (Return tt, with_log [debug_sent operation payload] st).
Proof. intros Hs Hr. now apply send_disconnected. Qed.

Lemma send_without_connection_witness :
  send FRAME (Some demo_payload) demo_client
  = (Return tt, with_log [debug_sent FRAME (Some demo_payload)] demo_client).
Proof.
  apply (send_without_connection demo_client FRAME (Some demo_payload)).
  - reflexivity.
  - by_computation.
Defined.

(** C8, as amended.  When the bytes of one read cycle are a complete frame
    followed by more bytes, the length check fails on the whole: the cycle
    publishes the malformed-packet diagnostic, dispatches nothing, and
    drops the first frame with the bytes after it. *)
Theorem trailing_bytes_drop_the_frame st i s chunks frame trailing op (v : json) :
  Connected st i s ->
  decode frame = Return (Frame op v) -> trailing <> [] ->
  List.concat chunks = frame ++ trailing ->
  decode (frame ++ trailing) = Return Malformed
  /\ socket_readable i chunks st
     = (Return tt, with_log (map debug_chunk chunks ++ [debug_malformed]) st).
Proof.
  intros Hc Hd Ht E.
  pose proof (decode_trailing frame trailing op v Hd Ht) as Hm.
  split; [exact Hm|].
  rewrite (read_cycle st i s) by assumption. rewrite E, Hm. cbv zeta.
  now rewrite with_log_app.
Qed.

(** A READY message with the first byte of a second frame behind it. *)
Lemma trailing_bytes_drop_the_frame_witness :
  decode (ready_frame ++ [x01]) = Return Malformed
  /\ socket_readable 0 [ready_frame ++ [x01]] demo_state
     = (Return tt, with_log [debug_chunk (ready_frame ++ [x01]); debug_malformed] demo_state).
Proof.
  apply (trailing_bytes_drop_the_frame demo_state 0%nat demo_socket
           [ready_frame ++ [x01]] ready_frame [x01] 1 ready_message).
  - constructor; reflexivity.
  - reflexivity.
  - discriminate.
  - reflexivity.
Defined.

(** C8 as stated fails: alone, the frame is dispatched as a message and the
    client hears [ready]; with one more byte behind it in the same cycle
    nothing is dispatched. *)
Lemma trailing_bytes_counterexample :
  socket_readable 0 [ready_frame] demo_state
  = (Return tt,
     with_log [debug_chunk ready_frame; debug_received 1 ready_message;
               Published OnTransport (str "message") [Some ready_message];
               Published OnClient (str "ready") []] demo_state)
  /\ socket_readable 0 [ready_frame ++ [x01]] demo_state
     = (Return tt, with_log [debug_chunk (ready_frame ++ [x01]); debug_malformed] demo_state).
Proof. split; reflexivity. Qed.

(** A truthy payload sent on a transport that holds socket [i]: the frame
    written decodes to the payload. *)
Lemma send_frame_decodes st i (operation : IPC_OPERATION) (payload : json) :
  socket st = Some i -> truthy (Some payload) = true -> representable (Some payload) ->
  exists frame,
    send operation (Some payload) st
    = (Return tt, with_log [debug_sent operation (Some payload)] (written i frame st))
    /\ decode frame = Return (Frame (op_code operation) payload).
Proof.
  intros Hs Ht Hr. eexists. split.
  - now apply send_connected.
  - now apply decode_encode.
Qed.

Lemma send_log operation payload st :
  log (snd (send operation payload st)) = log st ++ [debug_sent operation payload].
Proof.
  rewrite send_eq. destruct (encode operation payload); [|reflexivity].
  unfold update_socket. simpl. now destruct (socket st).
Qed.

(** [send] tells its payloads apart. *)
Lemma send_inj operation (p1 p2 : json) :
  send operation (Some p1) = send operation (Some p2) -> p1 = p2.
Proof.
  intros H.
  pose proof (send_log operation (Some p1) demo_client) as H1.
  pose proof (send_log operation (Some p2) demo_client) as H2.
  rewrite H, H2 in H1. apply app_inv_head in H1. now injection H1.
Qed.




(** C10.  The activity of the frame that [setActivity] sends is the
    argument as it was given, whatever [cleaned] made of it.  On a
    transport with a socket the frame written decodes to that payload. *)
Theorem activity_is_sent_verbatim w nonce activity (pid : option Z) :
  exists payload,
    setActivity w nonce activity pid = send FRAME (Some payload)
    /\ field ["args"; "activity"] payload = Some (json_of_activity activity)
    /\ (forall st i,
          socket st = Some i -> representable (Some payload) ->
          exists frame,
            setActivity w nonce activity pid st
            = (Return tt, with_log [debug_sent FRAME (Some payload)] (written i frame st))
            /\ decode frame = Return (Frame (op_code FRAME) payload)).
Proof.
  eexists. split; [reflexivity|]. split; [reflexivity|].
  intros st i Hs Hr. now apply send_frame_decodes.
Qed.

(** An activity of type Listening: [cleaned] holds the type Playing, the
    frame holds Listening (2). *)
Lemma activity_is_sent_verbatim_witness :
  type (cleaned demo_activity) = Some Playing
  /\ exists payload frame,
       field ["args"; "activity"; "type"] payload = Some (JNumber 2)
       /\ setActivity demo_world "abc" demo_activity None demo_state
          = (Return tt, with_log [debug_sent FRAME (Some payload)] (written 0 frame demo_state))
       /\ decode frame = Return (Frame 1 payload).
Proof.
  split; [reflexivity|].
  destruct (activity_is_sent_verbatim demo_world "abc" demo_activity None)
    as (payload & Hsend & Hact & Hwire).
  set (request := JObject [("cmd", JString "SET_ACTIVITY");
                           ("args", JObject [("pid", JNumber 1234);
                                             ("activity", json_of_activity demo_activity)]);
                           ("nonce", JString "abc")]).
  assert (E : payload = request) by (apply (send_inj FRAME); now rewrite <- Hsend).
  rewrite E in Hwire.
  destruct (Hwire demo_state 0%nat eq_refl) as (frame & Hw & Hd); [by_computation|].
  exists request, frame. split; [reflexivity|]. split; [exact Hw | exact Hd].
Defined.
